(** * The Spanish Snowball stemmer of whoosh, [whoosh/lang/snowball/spanish.py]

    A shallow embedding of [SpanishStemmer.stem] and the properties its
    specification states about it.

    Data model.  A Python text string is a sequence of code points.  The
    source writes every non-ASCII letter as a Latin-1 escape ([\xE1] ...
    [\xFC]); the embedding takes the code points U+0000 .. U+00FF, one
    [ascii] per code point, so a string is a [list ascii] and [len] is
    [length].  [str.lower] is the case mapping of Python on that range.
    Module [Unicode] is the same function on strings of arbitrary code
    points, for what depends on [str.lower] outside that range.

    Effects.  [stem] reassigns its locals [word], [r1], [r2], [rv] and
    [step1_success]; they are threaded as a record.  The one expression of
    [stem] that can raise ([rv[-1]], an [IndexError] on the empty string) is
    modelled with a result type. *)

From Stdlib Require Import Ascii String List Arith NArith Bool Lia.
Import ListNotations.

Set Implicit Arguments.
Local Open Scope list_scope.

(** ** Python strings *)

Module PyStr.

Definition str := list ascii.

Definition str_eqb (s t : str) : bool :=
  if list_eq_dec ascii_dec s t then true else false.

(** String literals are written as in the source, [\xHH] escapes included. *)
Definition hex_digit (c : ascii) : option nat :=
  let n := nat_of_ascii c in
  if (48 <=? n) && (n <=? 57) then Some (n - 48)
  else if (65 <=? n) && (n <=? 70) then Some (n - 55)
  else if (97 <=? n) && (n <=? 102) then Some (n - 87)
  else None.

Fixpoint py (s : string) : str :=
  match s with
  | EmptyString => []
  | String c tl =>
      match c, tl with
      | "\"%char, String "x"%char (String h (String l rest)) =>
          match hex_digit h, hex_digit l with
          | Some a, Some b => ascii_of_nat (16 * a + b) :: py rest
          | _, _ => c :: py tl
          end
      | _, _ => c :: py tl
      end
  end.

(** [s[:-n]] for [n > 0]: all but the last [n] items, empty when [s] is
    shorter than [n]. *)
Definition drop_last (n : nat) (s : str) : str := firstn (length s - n) s.

(** [s[-n:]] for [n > 0]: the last [n] items, all of [s] when it is shorter. *)
Definition last_n (n : nat) (s : str) : str := skipn (length s - n) s.

(** [s[-n-1:-n]] for [n > 0]: the item that precedes the last [n] ones, as a
    string; empty when there is none. *)
Definition item_before_last (n : nat) (s : str) : str :=
  firstn ((length s - n) - (length s - (n + 1))) (skipn (length s - (n + 1)) s).

(** [s.endswith(suffix)] *)
Definition endswith (s suffix : str) : bool :=
  (length suffix <=? length s) && str_eqb (last_n (length suffix) s) suffix.

(** [s.endswith((t1, ..., tk))] *)
Definition endswith_any (s : str) (suffixes : list str) : bool :=
  existsb (endswith s) suffixes.

(** [s.startswith(prefix)] *)
Fixpoint startswith (s prefix : str) {struct prefix} : bool :=
  match prefix, s with
  | [], _ => true
  | p :: prefix', c :: s' => if ascii_dec p c then startswith s' prefix' else false
  | _ :: _, [] => false
  end.

(** [x in (t1, ..., tk)] *)
Definition in_tuple (x : str) (t : list str) : bool := existsb (str_eqb x) t.

(** [c in vowels] for a one-character [c] *)
Definition in_chars (c : ascii) (chars : str) : bool :=
  existsb (fun v => if ascii_dec c v then true else false) chars.

(** [s.replace(old, new)]: every occurrence of [old], found from the left
    and not overlapping, becomes [new].  [skip] counts the items of a found
    occurrence that are still to be passed over. *)
Fixpoint replace_from (old new : str) (skip : nat) (s : str) : str :=
  match s with
  | [] => []
  | c :: s' =>
      match skip with
      | S k => replace_from old new k s'
      | O =>
          if startswith s old
          then new ++ replace_from old new (length old - 1) s'
          else c :: replace_from old new 0 s'
      end
  end.

Definition replace (old new s : str) : str :=
  match old with
  | [] => new ++ flat_map (fun c => c :: new) s
  | _ :: _ => replace_from old new 0 s
  end.

(** [str.lower] on U+0000 .. U+00FF: the capitals A-Z and, in the Latin-1
    supplement, U+00C0 .. U+00DE without the multiplication sign U+00D7 move
    up by 32; every other code point is kept.  That the length is kept holds
    in this range only; what depends on it is stated in module [Unicode]. *)
Definition lower_char (c : ascii) : ascii :=
  let n := nat_of_ascii c in
  if ((65 <=? n) && (n <=? 90))
     || ((192 <=? n) && (n <=? 222) && negb (n =? 215))
  then ascii_of_nat (n + 32) else c.

Definition lower (s : str) : str := map lower_char s.

(** Exceptions a call can end in. *)
Inductive exn := IndexError.

Inductive result (A : Type) :=
| Ok (a : A)
| Raise (e : exn).
Arguments Ok {A} a.
Arguments Raise {A} e.

Definition bind {A B} (m : result A) (k : A -> result B) : result B :=
  match m with
  | Ok a => k a
  | Raise e => Raise e
  end.

(** [s[-1]] *)
Definition last_item (s : str) : result ascii :=
  match rev s with
  | [] => Raise IndexError
  | c :: _ => Ok c
  end.

End PyStr.
Import PyStr.

Notation "x <- m ;; k" := (bind m (fun x => k))
  (at level 61, m at next level, right associativity).

(** ** The stemmer *)

Module SpanishStemmer.

Definition __vowels : str := py "aeiou\xE1\xE9\xED\xF3\xFA\xFC".

Definition __step0_suffixes : list str :=
  map py ["selas"; "selos"; "sela"; "selo"; "las";
          "les"; "los"; "nos"; "me"; "se"; "la"; "le";
          "lo"]%string.

Definition __step1_suffixes : list str :=
  map py ["amientos"; "imientos"; "amiento"; "imiento";
          "aciones"; "uciones"; "adoras"; "adores";
          "ancias"; "log\xEDas"; "encias"; "amente";
          "idades"; "anzas"; "ismos"; "ables"; "ibles";
          "istas"; "adora"; "aci\xF3n"; "antes";
          "ancia"; "log\xEDa"; "uci\xf3n"; "encia";
          "mente"; "anza"; "icos"; "icas"; "ismo";
          "able"; "ible"; "ista"; "osos"; "osas";
          "ador"; "ante"; "idad"; "ivas"; "ivos";
          "ico";
          "ica"; "oso"; "osa"; "iva"; "ivo"]%string.

Definition __step2a_suffixes : list str :=
  map py ["yeron"; "yendo"; "yamos"; "yais"; "yan";
          "yen"; "yas"; "yes"; "ya"; "ye"; "yo";
          "y\xF3"]%string.

Definition __step2b_suffixes : list str :=
  map py ["ar\xEDamos"; "er\xEDamos"; "ir\xEDamos";
          "i\xE9ramos"; "i\xE9semos"; "ar\xEDais";
          "aremos"; "er\xEDais"; "eremos";
          "ir\xEDais"; "iremos"; "ierais"; "ieseis";
          "asteis"; "isteis"; "\xE1bamos";
          "\xE1ramos"; "\xE1semos"; "ar\xEDan";
          "ar\xEDas"; "ar\xE9is"; "er\xEDan";
          "er\xEDas"; "er\xE9is"; "ir\xEDan";
          "ir\xEDas"; "ir\xE9is";
          "ieran"; "iesen"; "ieron"; "iendo"; "ieras";
          "ieses"; "abais"; "arais"; "aseis";
          "\xE9amos"; "ar\xE1n"; "ar\xE1s";
          "ar\xEDa"; "er\xE1n"; "er\xE1s";
          "er\xEDa"; "ir\xE1n"; "ir\xE1s";
          "ir\xEDa"; "iera"; "iese"; "aste"; "iste";
          "aban"; "aran"; "asen"; "aron"; "ando";
          "abas"; "adas"; "idas"; "aras"; "ases";
          "\xEDais"; "ados"; "idos"; "amos"; "imos";
          "emos"; "ar\xE1"; "ar\xE9"; "er\xE1";
          "er\xE9"; "ir\xE1"; "ir\xE9"; "aba";
          "ada"; "ida"; "ara"; "ase"; "\xEDan";
          "ado"; "ido"; "\xEDas"; "\xE1is";
          "\xE9is"; "\xEDa"; "ad"; "ed"; "id";
          "an"; "i\xF3"; "ar"; "er"; "ir"; "as";
          "\xEDs"; "en"; "es"]%string.

Definition __step3_suffixes : list str :=
  map py ["os"; "a"; "e"; "o"; "\xE1";
          "\xE9"; "\xED"; "\xF3"]%string.

(** The locals of [stem] that the steps read and assign. *)
Record locals := Locals {
  word : str;
  r1 : str;
  r2 : str;
  rv : str;
  step1_success : bool
}.

(** The groups of slice assignments [x = x[:-n]] that occur in the steps. *)
Definition cut_word_r1_r2_rv (n : nat) (st : locals) : locals :=
  {| word := drop_last n (word st); r1 := drop_last n (r1 st);
     r2 := drop_last n (r2 st); rv := drop_last n (rv st);
     step1_success := step1_success st |}.

Definition cut_word_r2_rv (n : nat) (st : locals) : locals :=
  {| word := drop_last n (word st); r1 := r1 st;
     r2 := drop_last n (r2 st); rv := drop_last n (rv st);
     step1_success := step1_success st |}.

Definition cut_word_rv (n : nat) (st : locals) : locals :=
  {| word := drop_last n (word st); r1 := r1 st; r2 := r2 st;
     rv := drop_last n (rv st); step1_success := step1_success st |}.

Definition cut_word (n : nat) (st : locals) : locals :=
  {| word := drop_last n (word st); r1 := r1 st; r2 := r2 st;
     rv := rv st; step1_success := step1_success st |}.

Definition cut_rv (n : nat) (st : locals) : locals :=
  {| word := word st; r1 := r1 st; r2 := r2 st;
     rv := drop_last n (rv st); step1_success := step1_success st |}.

(** [word = word.replace(old, new); rv = rv.replace(old, new)] *)
Definition replace_word_rv (old new : str) (st : locals) : locals :=
  {| word := replace old new (word st); r1 := r1 st; r2 := r2 st;
     rv := replace old new (rv st); step1_success := step1_success st |}.

Definition set_step1_success (st : locals) : locals :=
  {| word := word st; r1 := r1 st; r2 := r2 st; rv := rv st;
     step1_success := true |}.

(** [.replace("\xE1", "a").replace("\xE9", "e").replace("\xED", "i")] *)
Definition plain_aei (s : str) : str :=
  replace (py "\xED") (py "i")
    (replace (py "\xE9") (py "e") (replace (py "\xE1") (py "a") s)).

(** *** STEP 0: Attached pronoun (lines 93-126) *)

(** The body of [if rv.endswith(suffix):]. *)
Definition step0_branch (suffix : str) (st : locals) : locals :=
  let n := length suffix in
  if endswith_any (drop_last n (rv st))
       (map py ["i\xE9ndo"; "\xE1ndo"; "\xE1r"; "\xE9r"; "\xEDr"]%string)
  then {| word := plain_aei (drop_last n (word st));
          r1 := plain_aei (drop_last n (r1 st));
          r2 := plain_aei (drop_last n (r2 st));
          rv := plain_aei (drop_last n (rv st));
          step1_success := step1_success st |}
  else if endswith_any (drop_last n (rv st))
            (map py ["ando"; "iendo"; "ar"; "er"; "ir"]%string)
  then cut_word_r1_r2_rv n st
  else if endswith (drop_last n (rv st)) (py "yendo")
          && endswith (drop_last n (word st)) (py "uyendo")
  then cut_word_r1_r2_rv n st
  else st.

(** The [for] loop; its [break] is in the body of [if word.endswith(suffix):]. *)
Fixpoint step0_loop (suffixes : list str) (st : locals) : locals :=
  match suffixes with
  | [] => st
  | suffix :: rest =>
      if endswith (word st) suffix
      then (if endswith (rv st) suffix then step0_branch suffix st else st)
      else step0_loop rest st
  end.

Definition step0 (st : locals) : locals := step0_loop __step0_suffixes st.

(** *** STEP 1: Standard suffix removal (lines 129-204) *)

(** The body of [if suffix == "amente" and r1.endswith(suffix):]. *)
Definition step1_amente (st : locals) : locals :=
  let st := cut_word_r2_rv 6 (set_step1_success st) in
  if endswith (r2 st) (py "iv") then
    let st := cut_word_r2_rv 2 st in
    if endswith (r2 st) (py "at") then cut_word_rv 2 st else st
  else if endswith_any (r2 st) (map py ["os"; "ic"; "ad"]%string)
  then cut_word_rv 2 st
  else st.

(** [for pre_suff in ("abil", "ic", "iv"):], a loop without [break]. *)
Definition step1_pre_suff (st : locals) : locals :=
  fold_left
    (fun st pre_suff =>
       if endswith (r2 st) pre_suff
       then cut_word_rv (length pre_suff) st else st)
    (map py ["abil"; "ic"; "iv"]%string) st.

(** The body of [elif r2.endswith(suffix):]. *)
Definition step1_r2 (suffix : str) (st : locals) : locals :=
  let st := set_step1_success st in
  if in_tuple suffix
       (map py ["adora"; "ador"; "aci\xF3n"; "adoras";
                "adores"; "aciones"; "ante"; "antes";
                "ancia"; "ancias"]%string)
  then
    let st := cut_word_r2_rv (length suffix) st in
    if endswith (r2 st) (py "ic") then cut_word_rv 2 st else st
  else if in_tuple suffix (map py ["log\xEDa"; "log\xEDas"]%string)
  then replace_word_rv suffix (py "log") st
  else if in_tuple suffix (map py ["uci\xF3n"; "uciones"]%string)
  then replace_word_rv suffix (py "u") st
  else if in_tuple suffix (map py ["encia"; "encias"]%string)
  then replace_word_rv suffix (py "ente") st
  else if str_eqb suffix (py "mente")
  then
    let st := cut_word_r2_rv 5 st in
    if endswith_any (r2 st) (map py ["ante"; "able"; "ible"]%string)
    then cut_word_rv 4 st else st
  else if in_tuple suffix (map py ["idad"; "idades"]%string)
  then step1_pre_suff (cut_word_r2_rv (length suffix) st)
  else if in_tuple suffix (map py ["ivo"; "iva"; "ivos"; "ivas"]%string)
  then
    let st := cut_word_r2_rv (length suffix) st in
    if endswith (r2 st) (py "at") then cut_word_rv 2 st else st
  else cut_word_rv (length suffix) st.

(** The body of [if word.endswith(suffix):], up to its [break]. *)
Definition step1_branch (suffix : str) (st : locals) : locals :=
  if str_eqb suffix (py "amente") && endswith (r1 st) suffix
  then step1_amente st
  else if endswith (r2 st) suffix
  then step1_r2 suffix st
  else st.

Fixpoint step1_loop (suffixes : list str) (st : locals) : locals :=
  match suffixes with
  | [] => st
  | suffix :: rest =>
      if endswith (word st) suffix
      then step1_branch suffix st
      else step1_loop rest st
  end.

Definition step1 (st : locals) : locals := step1_loop __step1_suffixes st.

(** *** STEP 2a: Verb suffixes beginning 'y' (lines 208-213) *)

Fixpoint step2a_loop (suffixes : list str) (st : locals) : locals :=
  match suffixes with
  | [] => st
  | suffix :: rest =>
      if endswith (rv st) suffix
         && str_eqb (item_before_last (length suffix) (word st)) (py "u")
      then cut_word_rv (length suffix) st
      else step2a_loop rest st
  end.

Definition step2a (st : locals) : locals := step2a_loop __step2a_suffixes st.

(** *** STEP 2b: Other verb suffixes (lines 216-230) *)

Definition step2b_branch (suffix : str) (st : locals) : locals :=
  if in_tuple suffix (map py ["en"; "es"; "\xE9is"; "emos"]%string)
  then
    let st := cut_word_rv (length suffix) st in
    let st := if endswith (word st) (py "gu") then cut_word 1 st else st in
    if endswith (rv st) (py "gu") then cut_rv 1 st else st
  else cut_word_rv (length suffix) st.

Fixpoint step2b_loop (suffixes : list str) (st : locals) : locals :=
  match suffixes with
  | [] => st
  | suffix :: rest =>
      if endswith (rv st) suffix
      then step2b_branch suffix st
      else step2b_loop rest st
  end.

Definition step2b (st : locals) : locals := step2b_loop __step2b_suffixes st.

(** Both loops are in the body of [if not step1_success:] (lines 207-230). *)
Definition step2 (st : locals) : locals :=
  if negb (step1_success st) then step2b (step2a st) else st.

(** *** STEP 3: Residual suffix (lines 233-243) *)

(** [word[-2:] == "gu" and rv[-1] == "u"]: [and] evaluates [rv[-1]] only
    when its left operand is true. *)
Definition step3_branch (suffix : str) (st : locals) : result locals :=
  if in_tuple suffix (map py ["e"; "\xE9"]%string)
  then
    let st := cut_word_rv (length suffix) st in
    if str_eqb (last_n 2 (word st)) (py "gu")
    then
      c <- last_item (rv st) ;;
      if str_eqb [c] (py "u") then Ok (cut_word 1 st) else Ok st
    else Ok st
  else Ok (cut_word (length suffix) st).

Fixpoint step3_loop (suffixes : list str) (st : locals) : result locals :=
  match suffixes with
  | [] => Ok st
  | suffix :: rest =>
      if endswith (rv st) suffix
      then step3_branch suffix st
      else step3_loop rest st
  end.

Definition step3 (st : locals) : result locals := step3_loop __step3_suffixes st.

(** *** The last statement (lines 245-248) *)
Definition plain_aeiou (s : str) : str :=
  replace (py "\xFA") (py "u")
    (replace (py "\xF3") (py "o")
       (replace (py "\xED") (py "i")
          (replace (py "\xE9") (py "e") (replace (py "\xE1") (py "a") s)))).

(** Lines 87-248, from the regions on. *)
Definition steps (st : locals) : result str :=
  st <- step3 (step2 (step1 (step0 st))) ;;
  Ok (plain_aeiou (word st)).

(** *** [stem]

    [_r1r2_standard] and [_rv_standard] are methods of the base class
    [_StandardStemmer] in [.bases]; [stem] is stated over any pair of them. *)
Section Stem.

Variable _r1r2_standard : str -> str -> str * str.
Variable _rv_standard : str -> str -> str.

(** Lines 85-90. *)
Definition regions (w : str) : locals :=
  let '(r1, r2) := _r1r2_standard w __vowels in
  let rv := _rv_standard w __vowels in
  {| word := w; r1 := r1; r2 := r2; rv := rv; step1_success := false |}.

Definition stem (word : str) : result str :=
  let word := lower word in
  steps (regions word).

End Stem.

End SpanishStemmer.

(** ** The region computer *)

Module StandardStemmer.

(** Modelled from the spec: [_r1r2_standard] of [_StandardStemmer] in
    [.bases], which is not among the sources.  Spec, section 3: "R1 starts
    after the first non-vowel following a vowel; R2 is R1 computed
    recursively inside R1"; a region that cannot be found is empty. *)
Fixpoint after_vowel_non_vowel (vowels s : str) : str :=
  match s with
  | a :: ((b :: rest) as tl) =>
      if in_chars a vowels && negb (in_chars b vowels)
      then rest else after_vowel_non_vowel vowels tl
  | _ => []
  end.

Definition _r1r2_standard (word vowels : str) : str * str :=
  let r1 := after_vowel_non_vowel vowels word in
  let r2 := after_vowel_non_vowel vowels r1 in
  (r1, r2).

(** The part of [s] after its first item that satisfies [p]. *)
Fixpoint after_first (p : ascii -> bool) (s : str) : str :=
  match s with
  | [] => []
  | c :: s' => if p c then s' else after_first p s'
  end.

(** Modelled from the spec: [_rv_standard] of [_StandardStemmer] in
    [.bases], which is not among the sources.  Spec, section 2: the regions
    follow "the standard Snowball region rules"; section 3: RV has "its own
    first-vowel/consonant rule, handling diphthongs and word-initial vowels
    specially".  The standard rule for RV: when the second letter is not a
    vowel, RV is what follows the next vowel; when the first two letters are
    vowels, RV is what follows the next non-vowel; otherwise RV is what
    follows the third letter; RV is empty when there is no such position. *)
Definition _rv_standard (word vowels : str) : str :=
  match word with
  | c0 :: c1 :: rest =>
      if negb (in_chars c1 vowels)
      then after_first (fun c => in_chars c vowels) rest
      else if in_chars c0 vowels
      then after_first (fun c => negb (in_chars c vowels)) rest
      else skipn 3 word
  | _ => []
  end.

End StandardStemmer.

Import SpanishStemmer.

(** [SpanishStemmer().stem], with the regions of [StandardStemmer]. *)
Definition stem_standard : str -> result str :=
  stem StandardStemmer._r1r2_standard StandardStemmer._rv_standard.

(** ** The stemmer on every code point

    The strings of [SpanishStemmer] are over U+0000 .. U+00FF.  [str.lower]
    of Python 3 does not stay in that range, nor keep the length: it maps
    U+0130 to the two code points U+0069 U+0307.  This module is [stem] again,
    statement by statement, on strings of arbitrary code points ([N]), and
    over any [str.lower]; the tables are those of [SpanishStemmer]. *)

Module Unicode.

Definition str := list N.

Definition str_eqb (s t : str) : bool :=
  if list_eq_dec N.eq_dec s t then true else false.

(** A string over U+0000 .. U+00FF, as code points. *)
Definition code_points (s : PyStr.str) : str := map N_of_ascii s.

(** String literals, as in the source. *)
Definition u (s : string) : str := code_points (py s).

(** [s[:-n]] for [n > 0]: all but the last [n] items, empty when [s] is
    shorter than [n]. *)
Definition drop_last (n : nat) (s : str) : str := firstn (length s - n) s.

(** [s[-n:]] for [n > 0]: the last [n] items, all of [s] when it is shorter. *)
Definition last_n (n : nat) (s : str) : str := skipn (length s - n) s.

(** [s[-n-1:-n]] for [n > 0]: the item that precedes the last [n] ones, as a
    string; empty when there is none. *)
Definition item_before_last (n : nat) (s : str) : str :=
  firstn ((length s - n) - (length s - (n + 1))) (skipn (length s - (n + 1)) s).

(** [s.endswith(suffix)] *)
Definition endswith (s suffix : str) : bool :=
  (length suffix <=? length s) && str_eqb (last_n (length suffix) s) suffix.

(** [s.endswith((t1, ..., tk))] *)
Definition endswith_any (s : str) (suffixes : list str) : bool :=
  existsb (endswith s) suffixes.

(** [s.startswith(prefix)] *)
Fixpoint startswith (s prefix : str) {struct prefix} : bool :=
  match prefix, s with
  | [], _ => true
  | p :: prefix', c :: s' => if N.eq_dec p c then startswith s' prefix' else false
  | _ :: _, [] => false
  end.

(** [x in (t1, ..., tk)] *)
Definition in_tuple (x : str) (t : list str) : bool := existsb (str_eqb x) t.

(** [c in vowels] for a one-character [c] *)
Definition in_chars (c   : N) (chars : str) : bool :=
  existsb (fun v => if N.eq_dec c v then true else false) chars.

(** [s.replace(old, new)]: every occurrence of [old], found from the left
    and not overlapping, becomes [new].  [skip] counts the items of a found
    occurrence that are still to be passed over. *)
Fixpoint replace_from (old new : str) (skip : nat) (s : str) : str :=
  match s with
  | [] => []
  | c :: s' =>
      match skip with
      | S k => replace_from old new k s'
      | O =>
          if startswith s old
          then new ++ replace_from old new (length old - 1) s'
          else c :: replace_from old new 0 s'
      end
  end.

Definition replace (old new s : str) : str :=
  match old with
  | [] => new ++ flat_map (fun c => c :: new) s
  | _ :: _ => replace_from old new 0 s
  end.

(** [s[-1]] *)
Definition last_item (s : str) : result N :=
  match rev s with
  | [] => Raise IndexError
  | c :: _ => Ok c
  end.


Definition __vowels : str := code_points SpanishStemmer.__vowels.
Definition __step0_suffixes : list str :=
  map code_points SpanishStemmer.__step0_suffixes.
Definition __step1_suffixes : list str :=
  map code_points SpanishStemmer.__step1_suffixes.
Definition __step2a_suffixes : list str :=
  map code_points SpanishStemmer.__step2a_suffixes.
Definition __step2b_suffixes : list str :=
  map code_points SpanishStemmer.__step2b_suffixes.
Definition __step3_suffixes : list str :=
  map code_points SpanishStemmer.__step3_suffixes.

(** The locals of [stem] that the steps read and assign. *)
Record locals := Locals {
  word : str;
  r1 : str;
  r2 : str;
  rv : str;
  step1_success : bool
}.

(** The groups of slice assignments [x = x[:-n]] that occur in the steps. *)
Definition cut_word_r1_r2_rv (n : nat) (st : locals) : locals :=
  {| word := drop_last n (word st); r1 := drop_last n (r1 st);
     r2 := drop_last n (r2 st); rv := drop_last n (rv st);
     step1_success := step1_success st |}.

Definition cut_word_r2_rv (n : nat) (st : locals) : locals :=
  {| word := drop_last n (word st); r1 := r1 st;
     r2 := drop_last n (r2 st); rv := drop_last n (rv st);
     step1_success := step1_success st |}.

Definition cut_word_rv (n : nat) (st : locals) : locals :=
  {| word := drop_last n (word st); r1 := r1 st; r2 := r2 st;
     rv := drop_last n (rv st); step1_success := step1_success st |}.

Definition cut_word (n : nat) (st : locals) : locals :=
  {| word := drop_last n (word st); r1 := r1 st; r2 := r2 st;
     rv := rv st; step1_success := step1_success st |}.

Definition cut_rv (n : nat) (st : locals) : locals :=
  {| word := word st; r1 := r1 st; r2 := r2 st;
     rv := drop_last n (rv st); step1_success := step1_success st |}.

(** [word = word.replace(old, new); rv = rv.replace(old, new)] *)
Definition replace_word_rv (old new : str) (st : locals) : locals :=
  {| word := replace old new (word st); r1 := r1 st; r2 := r2 st;
     rv := replace old new (rv st); step1_success := step1_success st |}.

Definition set_step1_success (st : locals) : locals :=
  {| word := word st; r1 := r1 st; r2 := r2 st; rv := rv st;
     step1_success := true |}.

(** [.replace("\xE1", "a").replace("\xE9", "e").replace("\xED", "i")] *)
Definition plain_aei (s : str) : str :=
  replace (u "\xED") (u "i")
    (replace (u "\xE9") (u "e") (replace (u "\xE1") (u "a") s)).

(** *** STEP 0: Attached pronoun (lines 93-126) *)

(** The body of [if rv.endswith(suffix):]. *)
Definition step0_branch (suffix : str) (st : locals) : locals :=
  let n := length suffix in
  if endswith_any (drop_last n (rv st))
       (map u ["i\xE9ndo"; "\xE1ndo"; "\xE1r"; "\xE9r"; "\xEDr"]%string)
  then {| word := plain_aei (drop_last n (word st));
          r1 := plain_aei (drop_last n (r1 st));
          r2 := plain_aei (drop_last n (r2 st));
          rv := plain_aei (drop_last n (rv st));
          step1_success := step1_success st |}
  else if endswith_any (drop_last n (rv st))
            (map u ["ando"; "iendo"; "ar"; "er"; "ir"]%string)
  then cut_word_r1_r2_rv n st
  else if endswith (drop_last n (rv st)) (u "yendo")
          && endswith (drop_last n (word st)) (u "uyendo")
  then cut_word_r1_r2_rv n st
  else st.

(** The [for] loop; its [break] is in the body of [if word.endswith(suffix):]. *)
Fixpoint step0_loop (suffixes : list str) (st : locals) : locals :=
  match suffixes with
  | [] => st
  | suffix :: rest =>
      if endswith (word st) suffix
      then (if endswith (rv st) suffix then step0_branch suffix st else st)
      else step0_loop rest st
  end.

Definition step0 (st : locals) : locals := step0_loop __step0_suffixes st.

(** *** STEP 1: Standard suffix removal (lines 129-204) *)

(** The body of [if suffix == "amente" and r1.endswith(suffix):]. *)
Definition step1_amente (st : locals) : locals :=
  let st := cut_word_r2_rv 6 (set_step1_success st) in
  if endswith (r2 st) (u "iv") then
    let st := cut_word_r2_rv 2 st in
    if endswith (r2 st) (u "at") then cut_word_rv 2 st else st
  else if endswith_any (r2 st) (map u ["os"; "ic"; "ad"]%string)
  then cut_word_rv 2 st
  else st.

(** [for pre_suff in ("abil", "ic", "iv"):], a loop without [break]. *)
Definition step1_pre_suff (st : locals) : locals :=
  fold_left
    (fun st pre_suff =>
       if endswith (r2 st) pre_suff
       then cut_word_rv (length pre_suff) st else st)
    (map u ["abil"; "ic"; "iv"]%string) st.

(** The body of [elif r2.endswith(suffix):]. *)
Definition step1_r2 (suffix : str) (st : locals) : locals :=
  let st := set_step1_success st in
  if in_tuple suffix
       (map u ["adora"; "ador"; "aci\xF3n"; "adoras";
                "adores"; "aciones"; "ante"; "antes";
                "ancia"; "ancias"]%string)
  then
    let st := cut_word_r2_rv (length suffix) st in
    if endswith (r2 st) (u "ic") then cut_word_rv 2 st else st
  else if in_tuple suffix (map u ["log\xEDa"; "log\xEDas"]%string)
  then replace_word_rv suffix (u "log") st
  else if in_tuple suffix (map u ["uci\xF3n"; "uciones"]%string)
  then replace_word_rv suffix (u "u") st
  else if in_tuple suffix (map u ["encia"; "encias"]%string)
  then replace_word_rv suffix (u "ente") st
  else if str_eqb suffix (u "mente")
  then
    let st := cut_word_r2_rv 5 st in
    if endswith_any (r2 st) (map u ["ante"; "able"; "ible"]%string)
    then cut_word_rv 4 st else st
  else if in_tuple suffix (map u ["idad"; "idades"]%string)
  then step1_pre_suff (cut_word_r2_rv (length suffix) st)
  else if in_tuple suffix (map u ["ivo"; "iva"; "ivos"; "ivas"]%string)
  then
    let st := cut_word_r2_rv (length suffix) st in
    if endswith (r2 st) (u "at") then cut_word_rv 2 st else st
  else cut_word_rv (length suffix) st.

(** The body of [if word.endswith(suffix):], up to its [break]. *)
Definition step1_branch (suffix : str) (st : locals) : locals :=
  if str_eqb suffix (u "amente") && endswith (r1 st) suffix
  then step1_amente st
  else if endswith (r2 st) suffix
  then step1_r2 suffix st
  else st.

Fixpoint step1_loop (suffixes : list str) (st : locals) : locals :=
  match suffixes with
  | [] => st
  | suffix :: rest =>
      if endswith (word st) suffix
      then step1_branch suffix st
      else step1_loop rest st
  end.

Definition step1 (st : locals) : locals := step1_loop __step1_suffixes st.

(** *** STEP 2a: Verb suffixes beginning 'y' (lines 208-213) *)

Fixpoint step2a_loop (suffixes : list str) (st : locals) : locals :=
  match suffixes with
  | [] => st
  | suffix :: rest =>
      if endswith (rv st) suffix
         && str_eqb (item_before_last (length suffix) (word st)) (u "u")
      then cut_word_rv (length suffix) st
      else step2a_loop rest st
  end.

Definition step2a (st : locals) : locals := step2a_loop __step2a_suffixes st.

(** *** STEP 2b: Other verb suffixes (lines 216-230) *)

Definition step2b_branch (suffix : str) (st : locals) : locals :=
  if in_tuple suffix (map u ["en"; "es"; "\xE9is"; "emos"]%string)
  then
    let st := cut_word_rv (length suffix) st in
    let st := if endswith (word st) (u "gu") then cut_word 1 st else st in
    if endswith (rv st) (u "gu") then cut_rv 1 st else st
  else cut_word_rv (length suffix) st.

Fixpoint step2b_loop (suffixes : list str) (st : locals) : locals :=
  match suffixes with
  | [] => st
  | suffix :: rest =>
      if endswith (rv st) suffix
      then step2b_branch suffix st
      else step2b_loop rest st
  end.

Definition step2b (st : locals) : locals := step2b_loop __step2b_suffixes st.

(** Both loops are in the body of [if not step1_success:] (lines 207-230). *)
Definition step2 (st : locals) : locals :=
  if negb (step1_success st) then step2b (step2a st) else st.

(** *** STEP 3: Residual suffix (lines 233-243) *)

(** [word[-2:] == "gu" and rv[-1] == "u"]: [and] evaluates [rv[-1]] only
    when its left operand is true. *)
Definition step3_branch (suffix : str) (st : locals) : result locals :=
  if in_tuple suffix (map u ["e"; "\xE9"]%string)
  then
    let st := cut_word_rv (length suffix) st in
    if str_eqb (last_n 2 (word st)) (u "gu")
    then
      c <- last_item (rv st) ;;
      if str_eqb [c] (u "u") then Ok (cut_word 1 st) else Ok st
    else Ok st
  else Ok (cut_word (length suffix) st).

Fixpoint step3_loop (suffixes : list str) (st : locals) : result locals :=
  match suffixes with
  | [] => Ok st
  | suffix :: rest =>
      if endswith (rv st) suffix
      then step3_branch suffix st
      else step3_loop rest st
  end.

Definition step3 (st : locals) : result locals := step3_loop __step3_suffixes st.

(** *** The last statement (lines 245-248) *)
Definition plain_aeiou (s : str) : str :=
  replace (u "\xFA") (u "u")
    (replace (u "\xF3") (u "o")
       (replace (u "\xED") (u "i")
          (replace (u "\xE9") (u "e") (replace (u "\xE1") (u "a") s)))).

(** Lines 87-248, from the regions on. *)
Definition steps (st : locals) : result str :=
  st <- step3 (step2 (step1 (step0 st))) ;;
  Ok (plain_aeiou (word st)).

(** *** [stem]

    Stated over any [str.lower], whose table is that of the Python version
    at hand, and over any [_r1r2_standard] and [_rv_standard]. *)
Section Stem.

Variable lower : str -> str.
Variable _r1r2_standard : str -> str -> str * str.
Variable _rv_standard : str -> str -> str.

(** Lines 85-90. *)
Definition regions (w : str) : locals :=
  let '(r1, r2) := _r1r2_standard w __vowels in
  let rv := _rv_standard w __vowels in
  {| word := w; r1 := r1; r2 := r2; rv := rv; step1_success := false |}.

Definition stem (word : str) : result str :=
  let word := lower word in
  steps (regions word).

End Stem.


Module StandardStemmer.

(** Modelled from the spec: [_r1r2_standard] of [_StandardStemmer] in
    [.bases], which is not among the sources.  Spec, section 3: "R1 starts
    after the first non-vowel following a vowel; R2 is R1 computed
    recursively inside R1"; a region that cannot be found is empty. *)
Fixpoint after_vowel_non_vowel (vowels s : str) : str :=
  match s with
  | a :: ((b :: rest) as tl) =>
      if in_chars a vowels && negb (in_chars b vowels)
      then rest else after_vowel_non_vowel vowels tl
  | _ => []
  end.

Definition _r1r2_standard (word vowels : str) : str * str :=
  let r1 := after_vowel_non_vowel vowels word in
  let r2 := after_vowel_non_vowel vowels r1 in
  (r1, r2).

(** The part of [s] after its first item that satisfies [p]. *)
Fixpoint after_first (p   : N -> bool) (s : str) : str :=
  match s with
  | [] => []
  | c :: s' => if p c then s' else after_first p s'
  end.

(** Modelled from the spec: [_rv_standard] of [_StandardStemmer] in
    [.bases], which is not among the sources.  Spec, section 2: the regions
    follow "the standard Snowball region rules"; section 3: RV has "its own
    first-vowel/consonant rule, handling diphthongs and word-initial vowels
    specially".  The standard rule for RV: when the second letter is not a
    vowel, RV is what follows the next vowel; when the first two letters are
    vowels, RV is what follows the next non-vowel; otherwise RV is what
    follows the third letter; RV is empty when there is no such position. *)
Definition _rv_standard (word vowels : str) : str :=
  match word with
  | c0 :: c1 :: rest =>
      if negb (in_chars c1 vowels)
      then after_first (fun c => in_chars c vowels) rest
      else if in_chars c0 vowels
      then after_first (fun c => negb (in_chars c vowels)) rest
      else skipn 3 word
  | _ => []
  end.

End StandardStemmer.

(** [str.lower] of Python 3 on the strings over U+0000 .. U+00FF and U+0130
    (LATIN CAPITAL LETTER I WITH DOT ABOVE, lower-cased to U+0069 U+0307).
    The other code points are left as they are: their case mappings are not
    modelled, and nothing is stated about [stem] with this function on them. *)
Definition lower_code_point (c : N) : str :=
  if (c <? 256)%N then [N_of_ascii (lower_char (ascii_of_N c))]
  else if (c =? 304)%N then [105%N; 775%N]
  else [c].

Definition lower_py3 (s : str) : str := flat_map lower_code_point s.

(** [SpanishStemmer().stem] of Python 3, with the regions of
    [StandardStemmer]. *)
Definition stem_py3 : str -> result str :=
  stem lower_py3 StandardStemmer._r1r2_standard StandardStemmer._rv_standard.

End Unicode.

(** ** Notions the properties are stated with *)

(** The five accented vowels that the last statement of [stem] replaces. *)
Definition accented_vowels : str := py "\xE1\xE9\xED\xF3\xFA".


(** The regions as suffix strings: [r2] ends [r1], [r1] and [rv] end [word]. *)
Definition rv_valid (st : locals) : bool := endswith (word st) (rv st).

Definition regions_valid (st : locals) : bool :=
  endswith (r1 st) (r2 st) && endswith (word st) (r1 st) && rv_valid st.

(** The suffixes that Step 1 rewrites with [str.replace]. *)
Definition rewrite_suffixes : list str :=
  map py ["log\xEDa"; "log\xEDas"; "uci\xF3n"; "uciones"; "encia"; "encias"]%string.

(** Step 0 in the words of the specification: the first suffix, in the
    order of the table, that ends both the word and RV is the one the
    branch is evaluated on. *)
Definition step0_spec (st : locals) : locals :=
  match find (fun suffix => endswith (word st) suffix && endswith (rv st) suffix)
             __step0_suffixes with
  | Some suffix => step0_branch suffix st
  | None => st
  end.

(** The suffixes of a string, the longest first. *)
Fixpoint tails (s : str) : list str :=
  s :: match s with
       | [] => []
       | _ :: s' => tails s'
       end.

(** A rewrite of the trailing occurrence of [suffix] only. *)
Definition replace_suffix (suffix new s : str) : str :=
  drop_last (length suffix) s ++ new.

(** [s.replace(a, b)] for one-character [a] and [b], on one item. *)
Definition subst_char (a b c : ascii) : ascii := if ascii_dec a c then b else c.

(** A string is in lower case when [str.lower] leaves it as it is. *)
Definition lower_case_char (c : ascii) : Prop := lower_char c = c.

(** The two chains of one-character replacements, as maps. *)
Definition plain_aei_char (c : ascii) : ascii :=
  subst_char (ascii_of_nat 237) "i" (subst_char (ascii_of_nat 233) "e"
    (subst_char (ascii_of_nat 225) "a" c)).

Definition plain_aeiou_char (c : ascii) : ascii :=
  subst_char (ascii_of_nat 250) "u" (subst_char (ascii_of_nat 243) "o"
    (plain_aei_char c)).

(** [s'] is no longer than [s], and in lower case when [s] is. *)
Definition shrinks (s' s : str) : Prop :=
  length s' <= length s /\ (Forall lower_case_char s -> Forall lower_case_char s').

(** The rewrites of Step 1 (lines 163-173): the suffix and what replaces it. *)
Definition rewrite_rules : list (str * str) :=
  [(py "log\xEDa", py "log"); (py "log\xEDas", py "log");
   (py "uci\xF3n", py "u"); (py "uciones", py "u");
   (py "encia", py "ente"); (py "encias", py "ente")].

(** [s'] is, up to the accents that the last statement replaces, what is
    left of [s] when items are cut from its end. *)
Definition stripped (s' s : str) : Prop :=
  exists k, plain_aeiou s' = firstn k (plain_aeiou s).

(** The five tables of [stem], and the letters that end one of their
    suffixes. *)
Definition all_suffixes : list str :=
  __step0_suffixes ++ __step1_suffixes ++ __step2a_suffixes
    ++ __step2b_suffixes ++ __step3_suffixes.

Definition ends_a_suffix (c : ascii) : bool :=
  existsb (fun suffix => endswith suffix [c]) all_suffixes.

(** The endings that Step 0 leaves at the end of the word when it strips a
    pronoun. *)
Definition verb_endings : list str :=
  map py ["iendo"; "ando"; "ar"; "er"; "ir"; "yendo"]%string.

(** A string without the letter "g". *)
Definition no_g (s : str) : Prop := Forall (fun c => c <> "g"%char) s.

(** * Properties *)

(** ** Python strings *)

Section StrFacts.

Implicit Types s t p : str.

Lemma str_eqb_eq s t : str_eqb s t = true <-> s = t.
Proof.
  unfold str_eqb. destruct (list_eq_dec ascii_dec s t); split; congruence.
Qed.

Lemma str_eqb_refl s : str_eqb s s = true.
Proof. now apply str_eqb_eq. Qed.

Lemma skipn_length_app p t : skipn (length p) (p ++ t) = t.
Proof. induction p; cbn; auto. Qed.

Lemma firstn_length_app p t : firstn (length p) (p ++ t) = p.
Proof. induction p; cbn; f_equal; auto. Qed.

Lemma endswith_app p t : endswith (p ++ t) t = true.
Proof.
  unfold endswith, last_n. rewrite length_app.
  replace (length p + length t - length t) with (length p) by lia.
  rewrite skipn_length_app, str_eqb_refl, andb_true_r.
  apply Nat.leb_le. lia.
Qed.

Lemma endswith_split s t :
  endswith s t = true -> s = firstn (length s - length t) s ++ t.
Proof.
  unfold endswith, last_n. intros H.
  apply andb_true_iff in H as [_ H]. apply str_eqb_eq in H.
  rewrite <- (firstn_skipn (length s - length t) s) at 1. now rewrite H.
Qed.

Lemma endswith_iff s t : endswith s t = true <-> exists p, s = p ++ t.
Proof.
  split.
  - intros H. eexists. now apply endswith_split.
  - intros [p ->]. apply endswith_app.
Qed.

Lemma endswith_length s t : endswith s t = true -> length t <= length s.
Proof. intros [p ->]%endswith_iff. rewrite length_app. lia. Qed.

Lemma endswith_refl s : endswith s s = true.
Proof. apply (endswith_app []). Qed.

Lemma endswith_nil s : endswith s [] = true.
Proof. apply endswith_iff. exists s. now rewrite app_nil_r. Qed.

Lemma endswith_trans s t u :
  endswith s t = true -> endswith t u = true -> endswith s u = true.
Proof.
  intros [p ->]%endswith_iff [q ->]%endswith_iff.
  rewrite app_assoc. apply endswith_app.
Qed.

Lemma drop_last_app p t : drop_last (length t) (p ++ t) = p.
Proof.
  unfold drop_last. rewrite length_app.
  replace (length p + length t - length t) with (length p) by lia.
  apply firstn_length_app.
Qed.

Lemma drop_last_length n s : length (drop_last n s) = length s - n.
Proof. unfold drop_last. rewrite length_firstn. lia. Qed.

(** Two suffixes of one string: the shorter one ends the longer one. *)
Lemma endswith_both s t u :
  endswith s t = true -> endswith s u = true -> length u <= length t ->
  endswith t u = true.
Proof.
  intros [p Hp]%endswith_iff [q Hq]%endswith_iff Hlen.
  apply endswith_iff. exists (skipn (length p) q).
  assert (Hl : length s = length p + length t) by (rewrite Hp, length_app; lia).
  assert (Hs : skipn (length p) s = t).
  { rewrite Hp. apply skipn_length_app. }
  rewrite <- Hs, Hq, skipn_app.
  assert (length p <= length q).
  { rewrite Hq, length_app in Hl. lia. }
  replace (length p - length q) with 0 by lia. reflexivity.
Qed.

(** Cutting [n] items from the end of a string and of one of its suffixes. *)
Lemma endswith_drop_last n s t :
  endswith s t = true -> endswith (drop_last n s) (drop_last n t) = true.
Proof.
  intros [p ->]%endswith_iff. unfold drop_last. rewrite length_app.
  destruct (Nat.le_gt_cases n (length t)) as [Hle | Hgt].
  - replace (length p + length t - n) with (length p + (length t - n)) by lia.
    rewrite firstn_app_2. apply endswith_app.
  - replace (length t - n) with 0 by lia. apply endswith_nil.
Qed.

Lemma endswith_map (f : ascii -> ascii) s t :
  endswith s t = true -> endswith (map f s) (map f t) = true.
Proof. intros [p ->]%endswith_iff. rewrite map_app. apply endswith_app. Qed.

End StrFacts.

(** ** [str.replace] and [str.lower] *)

Section ReplaceFacts.

Variables old new : str.

Lemma startswith_length s : startswith s old = true -> length old <= length s.
Proof.
  revert s. induction old as [|p old' IH]; intros [|c s]; cbn; try lia; try discriminate.
  destruct (ascii_dec p c); [|discriminate]. intros H%IH. lia.
Qed.

Lemma startswith_refl s : startswith s s = true.
Proof. induction s as [|c s IH]; cbn; auto. now destruct (ascii_dec c c). Qed.

(** A replacement that is no longer than what it replaces does not
    lengthen the string. *)
Lemma replace_from_length skip s :
  length new <= length old ->
  length (replace_from old new skip s) + Nat.min skip (length s) <= length s.
Proof.
  intros Hle. revert skip. induction s as [|c s IH]; intros skip; cbn [replace_from].
  - cbn. lia.
  - destruct skip as [|k].
    + destruct (startswith (c :: s) old) eqn:Hs.
      * apply startswith_length in Hs. cbn [length] in *.
        specialize (IH (length old - 1)). rewrite length_app. lia.
      * specialize (IH 0). cbn [length] in *. lia.
    + specialize (IH k). cbn [length] in *. lia.
Qed.

Lemma replace_from_Forall (P : ascii -> Prop) skip s :
  Forall P new -> Forall P s -> Forall P (replace_from old new skip s).
Proof.
  intros Hn Hs. revert skip. induction Hs as [|c s Hc Hs IH]; intros skip; cbn [replace_from].
  - constructor.
  - destruct skip as [|k]; auto.
    destruct (startswith (c :: s) old); [apply Forall_app|]; auto.
Qed.

Lemma replace_not_empty s :
  old <> [] -> replace old new s = replace_from old new 0 s.
Proof. unfold replace. now destruct old. Qed.

Hypothesis old_not_empty : old <> [].

Lemma replace_length s :
  length new <= length old -> length (replace old new s) <= length s.
Proof.
  intros Hle. rewrite replace_not_empty by assumption.
  pose proof (replace_from_length 0 s Hle). lia.
Qed.

Lemma replace_Forall (P : ascii -> Prop) s :
  Forall P new -> Forall P s -> Forall P (replace old new s).
Proof.
  intros Hn Hs. rewrite replace_not_empty by assumption.
  now apply replace_from_Forall.
Qed.

(** When the string ends with [old], an occurrence is found and replaced:
    a shorter replacement shortens the string. *)
Lemma replace_shortens s :
  length new < length old -> endswith s old = true ->
  length (replace old new s) < length s.
Proof.
  intros Hlt He. rewrite replace_not_empty by assumption.
  induction s as [|c s IH]; cbn [replace_from].
  - apply endswith_length in He. cbn in He. lia.
  - destruct (startswith (c :: s) old) eqn:Hs.
    + pose proof (startswith_length _ Hs) as Hl.
      assert (Hr : length new <= length old) by lia.
      pose proof (replace_from_length (length old - 1) s Hr).
      rewrite length_app. cbn [length] in *. lia.
    + apply endswith_iff in He as [p Hp]. destruct p as [|c' p].
      * cbn in Hp. rewrite Hp, startswith_refl in Hs. discriminate.
      * injection Hp as -> ->. cbn [length].
        apply -> Nat.succ_lt_mono. apply IH, endswith_app.
Qed.

End ReplaceFacts.

Lemma replace_char a b s : replace [a] [b] s = map (subst_char a b) s.
Proof.
  unfold replace. induction s as [|c s IH]; cbn; auto.
  unfold subst_char at 1. destruct (ascii_dec a c); cbn; now rewrite IH.
Qed.

(** Case analysis on the tests of a step, and the fields of the locals
    after its assignments. *)
Ltac split_ifs :=
  repeat match goal with
         | |- context [if ?b then _ else _] => destruct b eqn:?
         end.

Ltac project_locals :=
  cbn [word r1 r2 rv step1_success cut_word_r1_r2_rv cut_word_r2_rv cut_word_rv
       cut_word cut_rv set_step1_success replace_word_rv].

Ltac each_ascii c :=
  destruct c as [[] [] [] [] [] [] [] []]; vm_compute; auto.

Lemma lower_char_idem c : lower_char (lower_char c) = lower_char c.
Proof. each_ascii c. Qed.

Lemma lower_idem s : lower (lower s) = lower s.
Proof.
  unfold lower. rewrite map_map. apply map_ext. intros c. apply lower_char_idem.
Qed.

Lemma lower_fixed_iff s : lower s = s <-> Forall lower_case_char s.
Proof.
  unfold lower. induction s as [|c s IH]; cbn.
  - split; auto.
  - split.
    + intros H. injection H as Hc Hs. constructor; auto. now apply IH.
    + intros H. inversion H; subst. f_equal; auto. now apply IH.
Qed.

Lemma lower_is_lower_case s : Forall lower_case_char (lower s).
Proof. apply lower_fixed_iff, lower_idem. Qed.

Lemma Forall_firstn_str (P : ascii -> Prop) n (s : str) :
  Forall P s -> Forall P (firstn n s).
Proof.
  intros H. revert n. induction H; intros [|n]; cbn; auto.
Qed.

Lemma drop_last_Forall (P : ascii -> Prop) n s :
  Forall P s -> Forall P (drop_last n s).
Proof. apply Forall_firstn_str. Qed.

Lemma plain_aei_map s : plain_aei s = map plain_aei_char s.
Proof.
  unfold plain_aei. change (py "\xED") with [ascii_of_nat 237].
  change (py "\xE9") with [ascii_of_nat 233].
  change (py "\xE1") with [ascii_of_nat 225].
  change (py "i") with ["i"%char]. change (py "e") with ["e"%char].
  change (py "a") with ["a"%char].
  rewrite !replace_char, !map_map. reflexivity.
Qed.

Lemma plain_aeiou_map s : plain_aeiou s = map plain_aeiou_char s.
Proof.
  unfold plain_aeiou. fold (plain_aei s). rewrite plain_aei_map.
  change (py "\xFA") with [ascii_of_nat 250].
  change (py "\xF3") with [ascii_of_nat 243].
  change (py "o") with ["o"%char]. change (py "u") with ["u"%char].
  rewrite !replace_char, !map_map. reflexivity.
Qed.

Lemma plain_aei_char_lower c : lower_case_char c -> lower_case_char (plain_aei_char c).
Proof. unfold lower_case_char. each_ascii c. Qed.

Lemma plain_aeiou_char_lower c :
  lower_case_char c -> lower_case_char (plain_aeiou_char c).
Proof. unfold lower_case_char. each_ascii c. Qed.

Lemma plain_aeiou_char_plain c : in_chars (plain_aeiou_char c) accented_vowels = false.
Proof. each_ascii c. Qed.


Lemma in_chars_In c s : in_chars c s = true <-> In c s.
Proof.
  unfold in_chars. rewrite existsb_exists. split.
  - intros [v [Hv Hc]]. destruct (ascii_dec c v); [now subst | discriminate].
  - intros H. exists c. split; auto. now destruct (ascii_dec c c).
Qed.

(** ** The word along the steps: no longer, and still in lower case *)

Lemma shrinks_refl s : shrinks s s.
Proof. split; auto. Qed.

Lemma shrinks_trans s t u : shrinks s t -> shrinks t u -> shrinks s u.
Proof. intros [H1 H2] [H3 H4]. split; [lia | auto]. Qed.

Lemma shrinks_drop_last n s : shrinks (drop_last n s) s.
Proof.
  split; [rewrite drop_last_length; lia | apply drop_last_Forall].
Qed.

Lemma shrinks_replace old new s :
  old <> [] -> length new <= length old -> Forall lower_case_char new ->
  shrinks (replace old new s) s.
Proof.
  intros Ho Hl Hn. split; [now apply replace_length | now apply replace_Forall].
Qed.

Lemma shrinks_plain_aei s : shrinks (plain_aei s) s.
Proof.
  rewrite plain_aei_map. split; [now rewrite length_map|].
  intros H. apply Forall_map. revert H. apply Forall_impl, plain_aei_char_lower.
Qed.

Lemma shrinks_plain_aeiou s : shrinks (plain_aeiou s) s.
Proof.
  rewrite plain_aeiou_map. split; [now rewrite length_map|].
  intros H. apply Forall_map. revert H. apply Forall_impl, plain_aeiou_char_lower.
Qed.

Lemma in_tuple_In x t : in_tuple x t = true -> In x t.
Proof.
  unfold in_tuple. intros [y [Hy ->%str_eqb_eq]]%existsb_exists. exact Hy.
Qed.

(** One step of the case analysis on the assignments to [word]. *)
Ltac shrink_word :=
  match goal with
  | |- shrinks ?s ?s => apply shrinks_refl
  | |- shrinks (word (if ?b then _ else _)) _ => destruct b eqn:?
  | |- shrinks (word (cut_word_r1_r2_rv ?n ?st)) _ =>
      apply (@shrinks_trans _ (word st)); [apply shrinks_drop_last|]
  | |- shrinks (word (cut_word_r2_rv ?n ?st)) _ =>
      apply (@shrinks_trans _ (word st)); [apply shrinks_drop_last|]
  | |- shrinks (word (cut_word_rv ?n ?st)) _ =>
      apply (@shrinks_trans _ (word st)); [apply shrinks_drop_last|]
  | |- shrinks (word (cut_word ?n ?st)) _ =>
      apply (@shrinks_trans _ (word st)); [apply shrinks_drop_last|]
  | |- shrinks (word (cut_rv ?n ?st)) _ =>
      change (word (cut_rv n st)) with (word st)
  | |- shrinks (word (set_step1_success ?st)) _ =>
      change (word (set_step1_success st)) with (word st)
  end.

Lemma step0_branch_shrinks suffix st : shrinks (word (step0_branch suffix st)) (word st).
Proof.
  unfold step0_branch. cbv zeta. repeat shrink_word.
  cbn [word]. eapply shrinks_trans; [apply shrinks_plain_aei | apply shrinks_drop_last].
Qed.

Lemma step0_shrinks st : shrinks (word (step0 st)) (word st).
Proof.
  unfold step0. induction __step0_suffixes as [|suffix rest IH]; cbn [step0_loop].
  - apply shrinks_refl.
  - repeat shrink_word; auto. apply step0_branch_shrinks.
Qed.

Lemma step1_amente_shrinks st : shrinks (word (step1_amente st)) (word st).
Proof. unfold step1_amente. cbv zeta. repeat shrink_word. Qed.

Lemma step1_pre_suff_shrinks st : shrinks (word (step1_pre_suff st)) (word st).
Proof.
  unfold step1_pre_suff. cbn [fold_left map]. repeat shrink_word.
Qed.

Lemma rewrite_shrinks suffix new st :
  In suffix rewrite_suffixes -> Forall lower_case_char new ->
  length new <= 4 ->
  shrinks (word (replace_word_rv suffix new st)) (word st).
Proof.
  intros Hin Hn Hl. cbn [word replace_word_rv]. apply shrinks_replace; auto.
  - intros ->. vm_compute in Hin. intuition discriminate.
  - unfold rewrite_suffixes in Hin. cbn [map In] in Hin.
    repeat (destruct Hin as [<- | Hin];
            [ match goal with
              | |- _ <= length ?x =>
                  let n := eval vm_compute in (length x) in
                  change (length x) with n; lia
              end |]).
    destruct Hin.
Qed.

Lemma step1_r2_shrinks suffix st : shrinks (word (step1_r2 suffix st)) (word st).
Proof.
  unfold step1_r2. cbv zeta.
  repeat first
    [ shrink_word
    | apply step1_pre_suff_shrinks
    | match goal with
      | |- shrinks (word (step1_pre_suff ?st)) _ =>
          apply (@shrinks_trans _ (word st)); [apply step1_pre_suff_shrinks|]
      | H : in_tuple suffix _ = true
        |- shrinks (word (replace_word_rv ?sfx ?new ?st0)) _ =>
          apply in_tuple_In in H; apply (@rewrite_shrinks sfx new st0);
          [ unfold rewrite_suffixes; cbn [map In] in H |- *; intuition auto
          | repeat constructor
          | vm_compute; lia ]
      end ].
Qed.

Lemma step1_shrinks st : shrinks (word (step1 st)) (word st).
Proof.
  unfold step1. induction __step1_suffixes as [|suffix rest IH]; cbn [step1_loop].
  - apply shrinks_refl.
  - unfold step1_branch. repeat shrink_word; auto.
    + apply step1_amente_shrinks.
    + apply step1_r2_shrinks.
Qed.

Lemma step2a_shrinks st : shrinks (word (step2a st)) (word st).
Proof.
  unfold step2a. induction __step2a_suffixes as [|suffix rest IH]; cbn [step2a_loop];
    repeat shrink_word; auto.
Qed.

Lemma step2b_shrinks st : shrinks (word (step2b st)) (word st).
Proof.
  unfold step2b. induction __step2b_suffixes as [|suffix rest IH]; cbn [step2b_loop];
    unfold step2b_branch; cbv zeta; repeat shrink_word; auto.
Qed.

Lemma step2_shrinks st : shrinks (word (step2 st)) (word st).
Proof.
  unfold step2. destruct (negb (step1_success st)); [|apply shrinks_refl].
  eapply shrinks_trans; [apply step2b_shrinks | apply step2a_shrinks].
Qed.

Lemma step3_shrinks st st' : step3 st = Ok st' -> shrinks (word st') (word st).
Proof.
  unfold step3. induction __step3_suffixes as [|suffix rest IH]; cbn [step3_loop].
  - intros [= <-]. apply shrinks_refl.
  - destruct (endswith (rv st) suffix); auto.
    unfold step3_branch. cbv zeta.
    destruct (in_tuple suffix _).
    + destruct (str_eqb _ _).
      * destruct (last_item _) as [c|e]; cbn [bind]; [|discriminate].
        destruct (str_eqb [c] _); intros [= <-]; repeat shrink_word.
      * intros [= <-]. repeat shrink_word.
    + intros [= <-]. repeat shrink_word.
Qed.

Lemma steps_shrinks st s : steps st = Ok s -> shrinks s (word st).
Proof.
  unfold steps. destruct (step3 _) as [st'|e] eqn:H3; cbn [bind]; [|discriminate].
  intros [= <-]. apply step3_shrinks in H3.
  eapply shrinks_trans; [apply shrinks_plain_aeiou|].
  eapply shrinks_trans; [exact H3|].
  eapply shrinks_trans; [apply step2_shrinks|].
  eapply shrinks_trans; [apply step1_shrinks | apply step0_shrinks].
Qed.

Lemma word_regions f g w : word (regions f g w) = w.
Proof. unfold regions. now destruct (f w __vowels). Qed.

Lemma steps_result st s :
  steps st = Ok s -> exists st', step3 (step2 (step1 (step0 st))) = Ok st' /\ s = plain_aeiou (word st').
Proof.
  unfold steps. destruct (step3 _) as [st'|e]; cbn [bind]; [|discriminate].
  intros [= <-]. now exists st'.
Qed.

(** ** Where Step 3 raises *)

Lemma last_item_raises s e : last_item s = Raise e -> s = [].
Proof.
  unfold last_item. destruct (rev s) eqn:E; [|discriminate].
  intros _. apply (f_equal (@rev ascii)) in E. now rewrite rev_involutive in E.
Qed.

Lemma step3_branch_raises suffix st e :
  step3_branch suffix st = Raise e ->
  in_tuple suffix (map py ["e"; "\xE9"]%string) = true
  /\ last_n 2 (drop_last (length suffix) (word st)) = py "gu"
  /\ drop_last (length suffix) (rv st) = [].
Proof.
  unfold step3_branch. cbv zeta. destruct (in_tuple suffix _); [|discriminate].
  project_locals. destruct (str_eqb _ _) eqn:Eg; [|discriminate].
  destruct (last_item _) as [c|e'] eqn:El; cbn [bind].
  - destruct (str_eqb [c] _); discriminate.
  - intros _. apply str_eqb_eq in Eg. apply last_item_raises in El. auto.
Qed.

Lemma step3_loop_raises suffixes st e :
  step3_loop suffixes st = Raise e ->
  exists suffix, endswith (rv st) suffix = true /\ step3_branch suffix st = Raise e.
Proof.
  induction suffixes as [|suffix rest IH]; cbn [step3_loop]; [discriminate|].
  destruct (endswith (rv st) suffix) eqn:E; auto. intros H. now exists suffix.
Qed.

(** Step 3 raises exactly when RV is "e" or "\xE9" and "gu" precedes it in
    the word: the strip empties RV and [rv[-1]] is evaluated. *)
Lemma step3_raises_iff st :
  step3 st = Raise IndexError
  <-> In (rv st) (map py ["e"; "\xE9"]%string)
      /\ last_n 2 (drop_last 1 (word st)) = py "gu".
Proof.
  split.
  - intros [suffix [He Hb]]%step3_loop_raises.
    apply step3_branch_raises in Hb as (Hs%in_tuple_In & Hg & Hr).
    pose proof (endswith_split _ _ He) as Hsplit.
    apply (f_equal (@length ascii)) in Hr. rewrite drop_last_length in Hr.
    rewrite Hr in Hsplit. cbn [firstn app] in Hsplit. rewrite Hsplit.
    split; [exact Hs|].
    cbn [map In] in Hs. destruct Hs as [<- | [<- | []]]; exact Hg.
  - intros [Hr Hg]. destruct st as [w a b v fl]. cbn [rv word] in *.
    unfold step3, __step3_suffixes. cbn [map In] in Hr.
    destruct Hr as [<- | [<- | []]]; cbn [map step3_loop];
      project_locals; vm_compute endswith; cbv iota;
      unfold step3_branch; cbv zeta; project_locals; vm_compute in_tuple;
      change (length (py "e")) with 1; change (length (py "\xE9")) with 1;
      rewrite Hg; reflexivity.
Qed.

(** On every other input of Step 3, [steps] returns a string. *)
Lemma steps_returns_unless st :
  let st3 := step2 (step1 (step0 st)) in
  (exists s, steps st = Ok s)
  \/ (steps st = Raise IndexError
      /\ In (rv st3) (map py ["e"; "\xE9"]%string)
      /\ last_n 2 (drop_last 1 (word st3)) = py "gu").
Proof.
  intros st3. unfold steps. fold st3.
  destruct (step3 st3) as [st'|[]] eqn:E; cbn [bind]; [left; eauto|].
  right. split; auto. now apply step3_raises_iff.
Qed.

(** Whatever R1 and R2 are, "ague" with RV = "e" is such an input. *)
Lemma stem_ague_raises_with f g :
  g (py "ague") __vowels = py "e" -> stem f g (py "ague") = Raise IndexError.
Proof.
  intros H. unfold stem, regions. change (lower (py "ague")) with (py "ague").
  destruct (f _ _) as [a b]. rewrite H. vm_compute. reflexivity.
Qed.

(** ** The claims *)

(** C1.  [stem] is not total: on "ague" RV is "e"; Step 3 strips it, the
    word then ends with "gu", and [rv[-1]] is evaluated on the empty string,
    which raises [IndexError] (line 239). *)
Theorem stem_ague_raises :
  regions StandardStemmer._r1r2_standard StandardStemmer._rv_standard (py "ague")
  = {| word := py "ague"; r1 := py "ue"; r2 := []; rv := py "e";
       step1_success := false |}
  /\ stem_standard (py "ague") = Raise IndexError.
Proof. split; vm_compute; reflexivity. Qed.

(** C2.  Whatever the regions are, a string that [stem] returns contains
    none of the five accented vowels and is its own lower-casing. *)
Theorem stem_output_plain_lower
    (f : str -> str -> str * str) (g : str -> str -> str) (w s : str) :
  stem f g w = Ok s ->
  (forall c, In c accented_vowels -> ~ In c s) /\ lower s = s.
Proof.
  unfold stem. intros H. split.
  - apply steps_result in H as [st' [_ ->]]. intros c Hc Hin.
    rewrite plain_aeiou_map in Hin. apply in_map_iff in Hin as [c' [<- _]].
    apply in_chars_In in Hc. now rewrite plain_aeiou_char_plain in Hc.
  - apply steps_shrinks in H as [_ H]. apply lower_fixed_iff, H.
    rewrite word_regions. apply lower_is_lower_case.
Qed.

Lemma stem_output_plain_lower_witness :
  (forall c, In c accented_vowels -> ~ In c (py "rapid"))
  /\ lower (py "rapid") = py "rapid".
Proof.
  apply (@stem_output_plain_lower StandardStemmer._r1r2_standard
           StandardStemmer._rv_standard (py "R\xC1PIDAMENTE") (py "rapid")).
  vm_compute. reflexivity.
Defined.

(** C7.  The rewrite rules of Step 1 call [str.replace], which rewrites
    every occurrence of the suffix: on "alog\xEDalog\xEDa" the rule for
    "log\xEDa" fires and also rewrites the occurrence at index 1, so the word
    is not the one with only its trailing suffix rewritten. *)
Theorem step1_rewrites_every_occurrence :
  let st := step0 (regions StandardStemmer._r1r2_standard
                     StandardStemmer._rv_standard (py "alog\xEDalog\xEDa")) in
  endswith (word st) (py "log\xEDa") = true
  /\ endswith (r2 st) (py "log\xEDa") = true
  /\ word (step1 st) = py "aloglog"
  /\ replace_suffix (py "log\xEDa") (py "log") (word st) = py "alog\xEDalog"
  /\ stem_standard (py "alog\xEDalog\xEDa") = Ok (py "aloglog").
Proof. repeat split; vm_compute; reflexivity. Qed.

(** C8, as the specification states it: false, "claridad" is not stemmed to
    "clar". *)
Lemma stem_claridad_not_clar :
  ~ (stem_standard (py "corriendo") = Ok (py "corr")
     /\ stem_standard (py "comiendo") = Ok (py "com")
     /\ stem_standard (py "claridad") = Ok (py "clar")
     /\ stem_standard (py "r\xE1pidamente") = Ok (py "rapid")
     /\ stem_standard (py "amigos") = Ok (py "amig")
     /\ stem_standard (py "") = Ok (py "")).
Proof. intros (_ & _ & H & _). vm_compute in H. discriminate. Qed.

(** C8, amended.  The literal scenarios, with the stem of "claridad" that
    the code computes: R2 of "claridad" is "ad", so the "idad" rule of Step 1
    does not fire and Step 2b strips "ad". *)
Theorem stem_literal_scenarios :
  stem_standard (py "corriendo") = Ok (py "corr")
  /\ stem_standard (py "comiendo") = Ok (py "com")
  /\ stem_standard (py "claridad") = Ok (py "clarid")
  /\ stem_standard (py "r\xE1pidamente") = Ok (py "rapid")
  /\ stem_standard (py "amigos") = Ok (py "amig")
  /\ stem_standard (py "") = Ok (py "").
Proof. repeat split; vm_compute; reflexivity. Qed.


(** C10.  Whatever the regions are, [stem] gives the same result, or raises
    the same exception, on a string and on its lower-casing. *)
Theorem stem_case_insensitive
    (f : str -> str -> str * str) (g : str -> str -> str) (w : str) :
  stem f g w = stem f g (lower w).
Proof. unfold stem. now rewrite lower_idem. Qed.

(** ** Step 1 and its flag *)

Lemma step0_keeps_flag st : step1_success (step0 st) = step1_success st.
Proof.
  unfold step0. induction __step0_suffixes as [|suffix rest IH]; cbn [step0_loop]; auto.
  unfold step0_branch. cbv zeta. split_ifs; auto.
Qed.

Lemma step1_amente_fires st :
  endswith (word st) (py "amente") = true ->
  step1_success (step1_amente st) = true
  /\ length (word (step1_amente st)) < length (word st).
Proof.
  intros H%endswith_length. change (length (py "amente")) with 6 in H.
  unfold step1_amente. cbv zeta. split_ifs; project_locals;
    rewrite ?drop_last_length; split; auto; lia.
Qed.

Lemma step1_r2_fires suffix st :
  suffix <> [] -> endswith (word st) suffix = true ->
  step1_success (step1_r2 suffix st) = true
  /\ length (word (step1_r2 suffix st)) < length (word st).
Proof.
  intros Hne He. pose proof (endswith_length _ _ He) as Hl.
  assert (0 < length suffix) by (destruct suffix; [congruence | cbn; lia]).
  unfold step1_r2, step1_pre_suff. cbv zeta. cbn [fold_left map].
  split_ifs; project_locals; rewrite ?drop_last_length; split; auto; try lia;
    match goal with
    | H : in_tuple suffix _ = true |- _ =>
        apply in_tuple_In in H; cbn [map In] in H;
        repeat (destruct H as [<- | H];
                [apply replace_shortens; auto; vm_compute; lia|]);
        destruct H
    end.
Qed.

Lemma step1_loop_cases suffixes st :
  Forall (fun suffix => suffix <> []) suffixes ->
  step1_loop suffixes st = st
  \/ (step1_success (step1_loop suffixes st) = true
      /\ length (word (step1_loop suffixes st)) < length (word st)).
Proof.
  induction 1 as [|suffix rest Hne _ IH]; cbn [step1_loop]; auto.
  destruct (endswith (word st) suffix) eqn:He; auto.
  unfold step1_branch.
  destruct (str_eqb suffix (py "amente") && endswith (r1 st) suffix) eqn:Ha.
  - right. apply andb_true_iff in Ha as [->%str_eqb_eq _].
    now apply step1_amente_fires.
  - destruct (endswith (r2 st) suffix); auto.
    right. now apply step1_r2_fires.
Qed.

Lemma step1_cases st :
  step1 st = st
  \/ (step1_success (step1 st) = true /\ length (word (step1 st)) < length (word st)).
Proof.
  apply step1_loop_cases. unfold __step1_suffixes.
  repeat (constructor; [discriminate|]). constructor.
Qed.

(** C6.  Steps 2a and 2b are both in the body of [if not step1_success:]:
    after Step 1 the flag is set exactly when Step 1 changed the word; with
    the flag unset Step 3 receives the locals of Step 2a followed by Step 2b,
    with the flag set it receives those of Step 1. *)
Theorem step2_iff_step1_removed_nothing (w a b c : str) :
  let st := step0 {| word := w; r1 := a; r2 := b; rv := c;
                     step1_success := false |} in
  step1_success (step1 st) = negb (str_eqb (word (step1 st)) (word st))
  /\ step2 (step1 st)
     = (if step1_success (step1 st) then step1 st else step2b (step2a (step1 st)))
  /\ steps {| word := w; r1 := a; r2 := b; rv := c; step1_success := false |}
     = (st' <- step3 (step2 (step1 st)) ;; Ok (plain_aeiou (word st'))).
Proof.
  intros st. split; [|split].
  - destruct (step1_cases st) as [-> | [-> Hlt]].
    + rewrite str_eqb_refl. subst st. now rewrite step0_keeps_flag.
    + destruct (str_eqb _ _) eqn:E; auto.
      apply str_eqb_eq in E. rewrite E in Hlt. lia.
  - unfold step2. now destruct (step1_success (step1 st)).
  - reflexivity.
Qed.

(** ** Step 0 and the first suffix that ends both the word and RV *)

Lemma step0_loop_find suffixes st :
  step0_loop suffixes st
  = match find (fun suffix => endswith (word st) suffix) suffixes with
    | Some suffix => if endswith (rv st) suffix then step0_branch suffix st else st
    | None => st
    end.
Proof.
  induction suffixes as [|suffix rest IH]; cbn [step0_loop find]; auto.
  now destruct (endswith (word st) suffix).
Qed.

Section FindFirst.

Variables W R : str -> bool.
Hypothesis R_W : forall s, R s = true -> W s = true.

Lemma find_both l : find (fun s => W s && R s) l = find R l.
Proof.
  induction l as [|s l IH]; cbn [find]; auto.
  destruct (R s) eqn:E; [now rewrite (@R_W _ E) | now rewrite andb_false_r].
Qed.

Lemma find_first l s : find W l = Some s -> R s = true -> find R l = Some s.
Proof.
  induction l as [|x l IH]; cbn [find]; [discriminate|].
  destruct (W x) eqn:Ew.
  - intros [= ->] ->. reflexivity.
  - destruct (R x) eqn:Er; [|exact IH]. apply R_W in Er. congruence.
Qed.

Lemma find_none_first l : find W l = None -> find R l = None.
Proof.
  induction l as [|x l IH]; cbn [find]; auto.
  destruct (W x) eqn:Ew; [discriminate|].
  destruct (R x) eqn:Er; [|exact IH]. apply R_W in Er. congruence.
Qed.

End FindFirst.

Lemma endswith_tails s t : endswith s t = true -> In t (tails s).
Proof.
  intros [p ->]%endswith_iff. induction p as [|c p IH]; cbn [app tails].
  - destruct t; cbn; auto.
  - right. exact IH.
Qed.

Lemma step0_first_both st suffix :
  find (fun s => endswith (word st) s) __step0_suffixes = Some suffix ->
  endswith (rv st) suffix = true ->
  find (fun s => endswith (word st) s && endswith (rv st) s) __step0_suffixes
  = Some suffix.
Proof.
  intros F HR.
  apply (@find_first (fun s => endswith (word st) s)
           (fun s => endswith (word st) s && endswith (rv st) s)); auto.
  - now intros s [H _]%andb_true_iff.
  - apply find_some in F as [_ ->]. exact HR.
Qed.

Lemma step0_spec_refines st : rv_valid st = true -> step0 st = step0_spec st.
Proof.
  intros Hv. unfold step0, step0_spec, rv_valid in *. rewrite step0_loop_find.
  assert (RW : forall s, endswith (rv st) s = true -> endswith (word st) s = true).
  { intros s. now apply endswith_trans. }
  rewrite (@find_both _ _ RW).
  destruct (find _ __step0_suffixes) as [s1|] eqn:F1.
  - destruct (endswith (rv st) s1) eqn:HR.
    + now rewrite (@find_first _ _ RW _ _ F1 HR).
    + apply find_some in F1 as [Hin HW].
      assert (Hs : endswith s1 (rv st) = true).
      { apply (@endswith_both _ _ _ HW Hv).
        destruct (Nat.le_gt_cases (length s1) (length (rv st))) as [Hle|Hgt]; [|lia].
        rewrite (@endswith_both _ _ _ Hv HW Hle) in HR. discriminate. }
      apply endswith_tails in Hs. destruct st as [w a b v fl]. cbn [rv word] in *.
      unfold __step0_suffixes in Hin. cbn [map In] in Hin.
      repeat (destruct Hin as [<- | Hin];
              [ vm_compute in Hs;
                repeat (destruct Hs as [<- | Hs];
                        [first [discriminate HR | vm_compute; reflexivity]|]);
                destruct Hs |]).
      destruct Hin.
  - now rewrite (@find_none_first _ _ RW _ F1).
Qed.

(** C4.  When RV is a suffix of the word, as every region is, Step 0 is the
    step of the specification, which evaluates the branch on the first suffix
    of the table that ends both the word and RV.  The loop itself stops at the
    first suffix that ends the word; when it evaluates the branch, that suffix
    is the first one that ends both. *)
Theorem step0_acts_on_first_both (st : locals) :
  rv_valid st = true ->
  step0 st = step0_spec st
  /\ forall suffix,
       find (fun s => endswith (word st) s) __step0_suffixes = Some suffix ->
       (if endswith (rv st) suffix
        then find (fun s => endswith (word st) s && endswith (rv st) s)
                  __step0_suffixes = Some suffix
             /\ step0 st = step0_branch suffix st
        else step0 st = st).
Proof.
  intros Hv. split; [now apply step0_spec_refines|].
  intros suffix F. unfold step0. rewrite step0_loop_find, F.
  destruct (endswith (rv st) suffix) eqn:HR; auto.
  split; auto. now apply step0_first_both.
Qed.

(** ** The regions along the steps *)

Lemma after_vowel_non_vowel_suffix vowels s :
  endswith s (StandardStemmer.after_vowel_non_vowel vowels s) = true.
Proof.
  induction s as [|a s IH]; [reflexivity|].
  cbn [StandardStemmer.after_vowel_non_vowel]. destruct s as [|b rest]; [apply endswith_nil|].
  destruct (in_chars a vowels && negb (in_chars b vowels)).
  - apply (endswith_app [a; b]).
  - apply endswith_trans with (b :: rest); [apply (endswith_app [a]) | exact IH].
Qed.

Lemma after_first_suffix p s : endswith s (StandardStemmer.after_first p s) = true.
Proof.
  induction s as [|c s IH]; [reflexivity|]. cbn [StandardStemmer.after_first].
  destruct (p c).
  - apply (endswith_app [c]).
  - apply endswith_trans with s; [apply (endswith_app [c]) | exact IH].
Qed.

Lemma skipn_suffix n s : endswith s (skipn n s) = true.
Proof. apply endswith_iff. exists (firstn n s). symmetry. apply firstn_skipn. Qed.

(** The regions that [stem] starts from are valid. *)
Lemma standard_regions_valid w :
  regions_valid
    (regions StandardStemmer._r1r2_standard StandardStemmer._rv_standard w) = true.
Proof.
  unfold regions_valid, rv_valid, regions, StandardStemmer._r1r2_standard. cbn [word r1 r2 rv].
  rewrite !after_vowel_non_vowel_suffix. cbn [andb].
  unfold StandardStemmer._rv_standard.
  destruct w as [|c0 [|c1 rest]]; try reflexivity.
  destruct (negb (in_chars c1 __vowels)); [|destruct (in_chars c0 __vowels)].
  - apply endswith_trans with rest; [apply (endswith_app [c0; c1]) | apply after_first_suffix].
  - apply endswith_trans with rest; [apply (endswith_app [c0; c1]) | apply after_first_suffix].
  - apply skipn_suffix.
Qed.

Lemma endswith_plain_aei s t :
  endswith s t = true -> endswith (plain_aei s) (plain_aei t) = true.
Proof. rewrite !plain_aei_map. apply endswith_map. Qed.










Lemma step0_acts_on_first_both_witness :
  let st := regions StandardStemmer._r1r2_standard StandardStemmer._rv_standard
              (py "haci\xE9ndoselo") in
  step0 st = step0_spec st
  /\ forall suffix,
       find (fun s => endswith (word st) s) __step0_suffixes = Some suffix ->
       (if endswith (rv st) suffix
        then find (fun s => endswith (word st) s && endswith (rv st) s)
                  __step0_suffixes = Some suffix
             /\ step0 st = step0_branch suffix st
        else step0 st = st).
Proof.
  apply step0_acts_on_first_both. vm_compute. reflexivity.
Defined.

(** * Further properties of [stem] *)

(** ** A relation that the assignments to [word] keep *)

Section WordRelation.

Variable R : str -> str -> Prop.
Hypothesis R_refl : forall s, R s s.
Hypothesis R_trans : forall s t u, R s t -> R t u -> R s u.
Hypothesis R_drop_last : forall n s, R (drop_last n s) s.
Hypothesis R_plain_aei : forall s, R (plain_aei s) s.

Ltac rel_word :=
  match goal with
  | |- R ?s ?s => apply R_refl
  | |- R (word (if ?b then _ else _)) _ => destruct b eqn:?
  | |- R (word (cut_word_r1_r2_rv ?n ?st)) _ =>
      apply (@R_trans _ (word st)); [apply R_drop_last|]
  | |- R (word (cut_word_r2_rv ?n ?st)) _ =>
      apply (@R_trans _ (word st)); [apply R_drop_last|]
  | |- R (word (cut_word_rv ?n ?st)) _ =>
      apply (@R_trans _ (word st)); [apply R_drop_last|]
  | |- R (word (cut_word ?n ?st)) _ =>
      apply (@R_trans _ (word st)); [apply R_drop_last|]
  | |- R (word (cut_rv ?n ?st)) _ => change (word (cut_rv n st)) with (word st)
  | |- R (word (set_step1_success ?st)) _ =>
      change (word (set_step1_success st)) with (word st)
  end.

Lemma step0_rel st : R (word (step0 st)) (word st).
Proof.
  unfold step0. rewrite step0_loop_find. destruct (find _ _) as [suffix|]; auto.
  unfold step0_branch. cbv zeta. repeat rel_word.
  cbn [word]. eapply R_trans; [apply R_plain_aei | apply R_drop_last].
Qed.

(** Step 1, given the relation for the rewrites that can apply to the word. *)
Lemma step1_rel st :
  (forall suffix new, In (suffix, new) rewrite_rules ->
     endswith (word st) suffix = true ->
     R (replace suffix new (word st)) (word st)) ->
  R (word (step1 st)) (word st).
Proof.
  intros Hrw. unfold step1.
  induction __step1_suffixes as [|suffix rest IH]; cbn [step1_loop]; auto.
  destruct (endswith (word st) suffix) eqn:He; auto.
  unfold step1_branch, step1_amente, step1_r2, step1_pre_suff.
  cbv zeta. cbn [fold_left map].
  repeat first
    [ rel_word
    | match goal with
      | H : in_tuple suffix _ = true
        |- R (word (replace_word_rv suffix ?new _)) _ =>
          cbn [word replace_word_rv]; apply Hrw; [|exact He];
          apply in_tuple_In in H; cbn [map In] in H;
          unfold rewrite_rules; cbn [In]; intuition (subst; auto 10)
      end ].
Qed.

Lemma step2_rel st : R (word (step2 st)) (word st).
Proof.
  unfold step2. destruct (negb _); auto.
  apply (@R_trans _ (word (step2a st))).
  - unfold step2b.
    induction __step2b_suffixes as [|suffix rest IH]; cbn [step2b_loop]; auto.
    unfold step2b_branch. cbv zeta. repeat rel_word. exact IH.
  - unfold step2a.
    induction __step2a_suffixes as [|suffix rest IH]; cbn [step2a_loop]; auto.
    repeat rel_word. exact IH.
Qed.

Lemma step3_rel st st' : step3 st = Ok st' -> R (word st') (word st).
Proof.
  unfold step3. induction __step3_suffixes as [|suffix rest IH]; cbn [step3_loop].
  - intros [= <-]. auto.
  - destruct (endswith (rv st) suffix); auto.
    unfold step3_branch. cbv zeta.
    destruct (in_tuple suffix _).
    + destruct (str_eqb _ _).
      * destruct (last_item _) as [c|e]; cbn [bind]; [|discriminate].
        destruct (str_eqb [c] _); intros [= <-]; repeat rel_word.
      * intros [= <-]. repeat rel_word.
    + intros [= <-]. repeat rel_word.
Qed.

Lemma before_step3_rel st :
  (forall suffix new, In (suffix, new) rewrite_rules ->
     endswith (word (step0 st)) suffix = true ->
     R (replace suffix new (word (step0 st))) (word (step0 st))) ->
  R (word (step2 (step1 (step0 st)))) (word st).
Proof.
  intros Hrw.
  eapply R_trans; [apply step2_rel|].
  eapply R_trans; [now apply step1_rel | apply step0_rel].
Qed.

End WordRelation.

(** ** What [stem] strips, and when it returns *)

Lemma In_firstn_str (c : ascii) n (s : str) : In c (firstn n s) -> In c s.
Proof.
  intros H. rewrite <- (firstn_skipn n s). apply in_or_app. now left.
Qed.

Lemma In_skipn_str (c : ascii) n (s : str) : In c (skipn n s) -> In c s.
Proof.
  intros H. rewrite <- (firstn_skipn n s). apply in_or_app. now right.
Qed.

Lemma plain_aeiou_char_plain_aei c :
  plain_aeiou_char (plain_aei_char c) = plain_aeiou_char c.
Proof. each_ascii c. Qed.

Lemma plain_aeiou_plain_aei s : plain_aeiou (plain_aei s) = plain_aeiou s.
Proof.
  rewrite plain_aei_map, !plain_aeiou_map, map_map.
  apply map_ext. intros c. apply plain_aeiou_char_plain_aei.
Qed.

Lemma stripped_refl s : stripped s s.
Proof. exists (length (plain_aeiou s)). now rewrite firstn_all. Qed.

Lemma stripped_trans s t u : stripped s t -> stripped t u -> stripped s u.
Proof.
  intros [k Hk] [j Hj]. exists (Nat.min k j).
  now rewrite Hk, Hj, firstn_firstn.
Qed.

Lemma stripped_drop_last n s : stripped (drop_last n s) s.
Proof.
  exists (length s - n). unfold drop_last. now rewrite !plain_aeiou_map, firstn_map.
Qed.

Lemma stripped_plain_aei s : stripped (plain_aei s) s.
Proof.
  exists (length (plain_aeiou s)). now rewrite plain_aeiou_plain_aei, firstn_all.
Qed.

Lemma plain_aeiou_idem s : plain_aeiou (plain_aeiou s) = plain_aeiou s.
Proof.
  rewrite !plain_aeiou_map, map_map. apply map_ext. intros c. each_ascii c.
Qed.

Lemma no_rewrite_applies s suffix new :
  endswith_any s rewrite_suffixes = false ->
  In (suffix, new) rewrite_rules -> endswith s suffix = true -> False.
Proof.
  intros Hn Hin He. change rewrite_suffixes with (map fst rewrite_rules) in Hn.
  assert (endswith_any s (map fst rewrite_rules) = true); [|congruence].
  apply existsb_exists. exists suffix. split; auto.
  now apply (in_map fst) in Hin.
Qed.

(** X1.  Apart from the rewrites of Step 1, [stem] only cuts items from the
    end of the word: when the word that enters Step 1 ends with none of the
    suffixes that Step 1 rewrites, the string returned is a prefix of the
    lower-cased input with its accents replaced. *)
Theorem stem_returns_a_prefix
    (f : str -> str -> str * str) (g : str -> str -> str) (w s : str) :
  endswith_any (word (step0 (regions f g (lower w)))) rewrite_suffixes = false ->
  stem f g w = Ok s ->
  s = firstn (length s) (plain_aeiou (lower w)).
Proof.
  intros Hn H. unfold stem in H. apply steps_result in H as [st' [H3 ->]].
  assert (Hs : stripped (word st') (lower w)).
  { rewrite <- (word_regions f g (lower w)).
    apply stripped_trans with (word (step2 (step1 (step0 (regions f g (lower w)))))).
    - exact (@step3_rel stripped stripped_refl stripped_trans
               stripped_drop_last _ _ H3).
    - apply (@before_step3_rel stripped stripped_refl stripped_trans
               stripped_drop_last stripped_plain_aei).
      intros suffix new Hin He.
      destruct (no_rewrite_applies _ Hn Hin He). }
  destruct Hs as [k Hk]. rewrite Hk, length_firstn, <- firstn_firstn.
  now rewrite firstn_all.
Qed.

Lemma stem_returns_a_prefix_witness :
  py "hac" = firstn (length (py "hac")) (plain_aeiou (lower (py "Haci\xE9ndoselo"))).
Proof.
  apply (@stem_returns_a_prefix StandardStemmer._r1r2_standard
           StandardStemmer._rv_standard (py "Haci\xE9ndoselo") (py "hac"));
    vm_compute; reflexivity.
Defined.

Lemma plain_aei_no_g s : no_g s -> no_g (plain_aei s).
Proof.
  unfold no_g. rewrite plain_aei_map. intros H. apply Forall_map.
  revert H. apply Forall_impl. intros c.
  destruct c as [[] [] [] [] [] [] [] []]; vm_compute; intros H;
    first [exact H | intros E; discriminate E].
Qed.

Lemma endswith_In s t c : endswith s t = true -> In c t -> In c s.
Proof. intros [p ->]%endswith_iff H. apply in_or_app. now right. Qed.

Lemma rewrite_no_g s suffix new :
  In (suffix, new) rewrite_rules -> endswith s suffix = true ->
  no_g s -> no_g (replace suffix new s).
Proof.
  unfold no_g. intros Hin He Hs. unfold rewrite_rules in Hin. cbn [In] in Hin.
  assert (Hg : forall t, endswith s t = true -> In "g"%char t -> False).
  { intros t Ht Hi. pose proof (endswith_In _ _ _ Ht Hi) as Hi'.
    rewrite Forall_forall in Hs. now apply Hs in Hi'. }
  repeat (destruct Hin as [[= <- <-] | Hin];
          [ first
              [ exfalso; apply (Hg _ He); vm_compute; tauto
              | apply replace_Forall; [discriminate | | exact Hs];
                repeat (constructor; [discriminate|]); constructor ] |]).
  destruct Hin.
Qed.

(** X2.  Whatever the regions are, [stem] returns a string on every input
    without the letter "g", in either case: [rv[-1]] is evaluated only
    behind a word that ends with "gu". *)
Theorem stem_returns_without_g
    (f : str -> str -> str * str) (g : str -> str -> str) (w : str) :
  ~ In "g"%char (lower w) -> exists s, stem f g w = Ok s.
Proof.
  intros Hw. unfold stem.
  destruct (steps_returns_unless (regions f g (lower w))) as [H | (_ & _ & Hg)]; auto.
  exfalso.
  assert (H0 : no_g (lower w)).
  { apply Forall_forall. intros c Hc ->. auto. }
  assert (H3 : no_g (word (step2 (step1 (step0 (regions f g (lower w))))))).
  { rewrite <- (word_regions f g (lower w)) in H0. revert H0.
    apply (@before_step3_rel (fun s' s => no_g s -> no_g s')); auto.
    - intros n s. apply drop_last_Forall.
    - intros s. apply plain_aei_no_g.
    - intros suffix new Hin He. now apply rewrite_no_g. }
  unfold no_g in H3. rewrite Forall_forall in H3. apply (H3 "g"%char); auto.
  unfold drop_last in Hg. eapply In_firstn_str, In_skipn_str.
  unfold last_n in Hg. rewrite Hg. vm_compute. auto.
Qed.

Lemma stem_returns_without_g_witness : exists s, stem_standard (py "corriendo") = Ok s.
Proof.
  apply stem_returns_without_g. vm_compute. intuition discriminate.
Defined.

(** X3.  Whatever the regions are, [stem] raises exactly when, after Steps 0
    to 2b, RV is "e" or "\xE9" and "gu" precedes the last letter of the word.
    On every other input it returns the word of Step 3 with its accents
    replaced. *)
Theorem stem_raises_exactly_when
    (f : str -> str -> str * str) (g : str -> str -> str) (w : str) :
  let st := step2 (step1 (step0 (regions f g (lower w)))) in
  (stem f g w = Raise IndexError
   <-> In (rv st) (map py ["e"; "\xE9"]%string)
       /\ last_n 2 (drop_last 1 (word st)) = py "gu")
  /\ (forall s, stem f g w = Ok s ->
        exists st', step3 st = Ok st' /\ s = plain_aeiou (word st')).
Proof.
  intros st. unfold stem. split.
  - rewrite <- step3_raises_iff. unfold steps. fold st.
    destruct (step3 st) as [st'|[]]; cbn [bind]; split; auto; discriminate.
  - apply steps_result.
Qed.

(** ** Words that no suffix matches *)

Lemma all_suffixes_not_empty suffix : In suffix all_suffixes -> suffix <> [].
Proof.
  assert (H : forallb (fun t => negb (str_eqb t [])) all_suffixes = true)
    by (vm_compute; reflexivity).
  rewrite forallb_forall in H. intros Hin ->. apply H in Hin. discriminate.
Qed.

Lemma endswith_last x q c suffix :
  x = q ++ [c] -> suffix <> [] -> endswith x suffix = true ->
  endswith suffix [c] = true.
Proof.
  intros -> Hne [p Hp]%endswith_iff.
  destruct (@exists_last _ _ Hne) as [t [d ->]].
  rewrite app_assoc in Hp. apply app_inj_tail in Hp as [_ ->].
  apply endswith_app.
Qed.

(** A string that is empty, or whose last letter ends no suffix of the
    tables, ends with none of them. *)
Lemma no_suffix_ends x suffix :
  x = [] \/ (exists q c, x = q ++ [c] /\ ends_a_suffix c = false) ->
  In suffix all_suffixes -> endswith x suffix = false.
Proof.
  intros Hx Hin. pose proof (@all_suffixes_not_empty _ Hin) as Hne.
  destruct (endswith x suffix) eqn:He; auto. exfalso.
  destruct Hx as [-> | (q & c & Hq & Hc)].
  - apply endswith_length in He. destruct suffix; [congruence | cbn in He; lia].
  - pose proof (@endswith_last _ _ _ _ Hq Hne He) as Hl.
    unfold ends_a_suffix in Hc.
    assert (existsb (fun t => endswith t [c]) all_suffixes = true); [|congruence].
    apply existsb_exists. exists suffix. split; assumption.
Qed.

Lemma suffix_of_snoc p c x :
  endswith (p ++ [c]) x = true -> x = [] \/ exists q, x = q ++ [c].
Proof.
  intros [t Ht]%endswith_iff. destruct x as [|a x']; auto. right.
  destruct (@exists_last _ (a :: x')) as [q [d Hq]]; [discriminate|].
  rewrite Hq, app_assoc in Ht. apply app_inj_tail in Ht as [_ ->]. now exists q.
Qed.

Lemma in_all_suffixes t :
  In t __step0_suffixes \/ In t __step1_suffixes \/ In t __step2a_suffixes
  \/ In t __step2b_suffixes \/ In t __step3_suffixes ->
  In t all_suffixes.
Proof. unfold all_suffixes. rewrite !in_app_iff. tauto. Qed.

Section NoMatch.

Variable st : locals.

Lemma step0_loop_no_match suffixes :
  (forall suffix, In suffix suffixes ->
     endswith (word st) suffix = false \/ endswith (rv st) suffix = false) ->
  step0_loop suffixes st = st.
Proof.
  induction suffixes as [|suffix rest IH]; intros H; cbn [step0_loop]; auto.
  destruct (H suffix (or_introl eq_refl)) as [-> | E].
  - apply IH. intros t Ht. apply H. now right.
  - rewrite E. destruct (endswith (word st) suffix); auto.
    apply IH. intros t Ht. apply H. now right.
Qed.

Lemma step1_loop_no_match suffixes :
  (forall suffix, In suffix suffixes ->
     endswith (word st) suffix = false
     \/ (endswith (r1 st) suffix = false /\ endswith (r2 st) suffix = false)) ->
  step1_loop suffixes st = st.
Proof.
  induction suffixes as [|suffix rest IH]; intros H; cbn [step1_loop]; auto.
  destruct (H suffix (or_introl eq_refl)) as [-> | [E1 E2]].
  - apply IH. intros t Ht. apply H. now right.
  - unfold step1_branch. rewrite E1, E2, andb_false_r.
    destruct (endswith (word st) suffix); auto.
    apply IH. intros t Ht. apply H. now right.
Qed.

Hypothesis rv_no_match :
  forall suffix, In suffix all_suffixes -> endswith (rv st) suffix = false.

Lemma step2a_no_match : step2a st = st.
Proof.
  unfold step2a.
  assert (H : forall t, In t __step2a_suffixes -> endswith (rv st) t = false).
  { intros t Ht. apply rv_no_match, in_all_suffixes. tauto. }
  induction __step2a_suffixes as [|suffix rest IH]; cbn [step2a_loop]; auto.
  rewrite (H suffix (or_introl eq_refl)). cbn [andb].
  apply IH. intros t Ht. apply H. now right.
Qed.

Lemma step2b_no_match : step2b st = st.
Proof.
  unfold step2b.
  assert (H : forall t, In t __step2b_suffixes -> endswith (rv st) t = false).
  { intros t Ht. apply rv_no_match, in_all_suffixes. tauto. }
  induction __step2b_suffixes as [|suffix rest IH]; cbn [step2b_loop]; auto.
  rewrite (H suffix (or_introl eq_refl)).
  apply IH. intros t Ht. apply H. now right.
Qed.

Lemma step3_no_match : step3 st = Ok st.
Proof.
  unfold step3.
  assert (H : forall t, In t __step3_suffixes -> endswith (rv st) t = false).
  { intros t Ht. apply rv_no_match, in_all_suffixes. tauto. }
  induction __step3_suffixes as [|suffix rest IH]; cbn [step3_loop]; auto.
  rewrite (H suffix (or_introl eq_refl)).
  apply IH. intros t Ht. apply H. now right.
Qed.

(** With a flag that is not set, a word or regions that Steps 0 and 1 do
    not match, and an RV that no suffix ends: nothing is stripped. *)
Lemma steps_no_match :
  step1_success st = false ->
  (forall suffix, In suffix all_suffixes ->
     endswith (word st) suffix = false
     \/ (endswith (r1 st) suffix = false /\ endswith (r2 st) suffix = false)) ->
  steps st = Ok (plain_aeiou (word st)).
Proof.
  intros Hf H1. unfold steps.
  assert (E0 : step0 st = st).
  { apply step0_loop_no_match. intros t Ht. right.
    apply rv_no_match, in_all_suffixes. tauto. }
  assert (E1 : step1 st = st).
  { apply step1_loop_no_match. intros t Ht.
    apply H1, in_all_suffixes. tauto. }
  rewrite E0, E1. unfold step2. rewrite Hf. cbn [negb].
  rewrite step2a_no_match, step2b_no_match, step3_no_match. reflexivity.
Qed.

End NoMatch.

Lemma regions_fields f g w :
  rv (regions f g w) = g w __vowels
  /\ r1 (regions f g w) = fst (f w __vowels)
  /\ r2 (regions f g w) = snd (f w __vowels)
  /\ step1_success (regions f g w) = false.
Proof. unfold regions. now destruct (f w __vowels). Qed.

(** X4.  A word whose last letter ends none of the suffixes of the five
    tables passes through: with an RV that is a suffix of the word, [stem]
    returns the lower-cased word with its accents replaced. *)
Theorem stem_passes_other_endings
    (f : str -> str -> str * str) (g : str -> str -> str) (w p : str) (c : ascii) :
  lower w = p ++ [c] -> ends_a_suffix c = false ->
  endswith (lower w) (g (lower w) __vowels) = true ->
  stem f g w = Ok (plain_aeiou (lower w)).
Proof.
  intros Hw Hc Hv. unfold stem.
  destruct (regions_fields f g (lower w)) as (Erv & _ & _ & Ef).
  rewrite <- (word_regions f g (lower w)) at 2.
  apply steps_no_match; auto.
  - intros suffix Hin. rewrite Erv. apply no_suffix_ends; auto.
    remember (g (lower w) __vowels) as x eqn:Ex. clear Ex. rewrite Hw in Hv.
    apply suffix_of_snoc in Hv as [-> | [q ->]]; eauto 6.
  - intros suffix Hin. left. rewrite word_regions. apply no_suffix_ends; eauto 6.
Qed.

Lemma stem_passes_other_endings_witness :
  stem_standard (py "Papel") = Ok (plain_aeiou (lower (py "Papel"))).
Proof.
  apply (@stem_passes_other_endings _ _ (py "Papel") (py "pape") "l"%char);
    vm_compute; reflexivity.
Defined.

(** X5.  A word for which the three regions are empty passes through:
    [stem] returns the lower-cased word with its accents replaced. *)
Theorem stem_passes_empty_regions
    (f : str -> str -> str * str) (g : str -> str -> str) (w : str) :
  f (lower w) __vowels = ([], []) -> g (lower w) __vowels = [] ->
  stem f g w = Ok (plain_aeiou (lower w)).
Proof.
  intros Hf Hg. unfold stem.
  destruct (regions_fields f g (lower w)) as (Erv & E1 & E2 & Ef).
  rewrite Hf in E1, E2. rewrite Hg in Erv. cbn [fst snd] in *.
  rewrite <- (word_regions f g (lower w)) at 2.
  apply steps_no_match; auto.
  - intros suffix Hin. rewrite Erv. apply no_suffix_ends; auto.
  - intros suffix Hin. right. rewrite E1, E2. split; apply no_suffix_ends; auto.
Qed.

Lemma stem_passes_empty_regions_witness :
  stem_standard (py "\xC9l") = Ok (plain_aeiou (lower (py "\xC9l"))).
Proof.
  apply stem_passes_empty_regions; vm_compute; reflexivity.
Defined.

(** ** Step 2a and what follows it *)

Lemma item_before_last_app m suffix c :
  item_before_last (length suffix) (m ++ suffix) = [c] -> exists r, m = r ++ [c].
Proof.
  unfold item_before_last. rewrite length_app.
  destruct m as [|a m'].
  - cbn [length app]. replace (0 + length suffix - length suffix) with 0 by lia.
    cbn [Nat.sub firstn]. discriminate.
  - destruct (@exists_last _ (a :: m')) as [r [d Hr]]; [discriminate|].
    rewrite Hr, length_app. cbn [length].
    replace (length r + 1 + length suffix - (length suffix + 1)) with (length r) by lia.
    replace (length r + 1 + length suffix - length suffix - length r) with 1 by lia.
    rewrite <- !app_assoc, skipn_length_app. cbn [app firstn].
    intros [= ->]. now exists r.
Qed.

Lemma step2a_cases st :
  step2a st = st
  \/ exists suffix,
       endswith (rv st) suffix = true
       /\ item_before_last (length suffix) (word st) = py "u"
       /\ step2a st = cut_word_rv (length suffix) st.
Proof.
  unfold step2a. induction __step2a_suffixes as [|suffix rest IH]; cbn [step2a_loop]; auto.
  destruct (endswith (rv st) suffix) eqn:He; auto.
  destruct (str_eqb _ _) eqn:Eu; auto. cbn [andb].
  right. exists suffix. apply str_eqb_eq in Eu. auto.
Qed.

(** X6.  Steps 2a and 2b never both strip, with an RV that is a suffix of
    the word: when Step 2a strips a suffix, the word is left ending with "u",
    and neither Step 2b nor Step 3 changes the locals after it. *)
Theorem step2a_is_followed_by_no_strip (st : locals) :
  rv_valid st = true ->
  step2a st = st
  \/ (endswith (word (step2a st)) (py "u") = true
      /\ step2b (step2a st) = step2a st
      /\ step3 (step2a st) = Ok (step2a st)).
Proof.
  intros Hv. destruct (step2a_cases st) as [E | (suffix & He & Hu & E)]; auto.
  right. rewrite E. unfold rv_valid in Hv.
  apply endswith_iff in Hv as [p Hp]. apply endswith_iff in He as [q Hq].
  assert (Hw : word st = (p ++ q) ++ suffix) by (rewrite Hp, Hq; apply app_assoc).
  rewrite Hw in Hu. apply item_before_last_app in Hu as [r Hr].
  assert (Ew : word (cut_word_rv (length suffix) st) = r ++ py "u").
  { cbn [word cut_word_rv]. rewrite Hw, drop_last_app. exact Hr. }
  assert (Er : rv (cut_word_rv (length suffix) st) = q).
  { cbn [rv cut_word_rv]. rewrite Hq. apply drop_last_app. }
  assert (Hn : forall t, In t all_suffixes ->
                 endswith (rv (cut_word_rv (length suffix) st)) t = false).
  { intros t Ht. rewrite Er. apply no_suffix_ends; auto.
    assert (Hs : endswith (r ++ ["u"%char]) q = true).
    { apply endswith_iff. exists p. symmetry. exact Hr. }
    apply suffix_of_snoc in Hs as [-> | [q' ->]]; auto.
    right. exists q', "u"%char. split; [reflexivity | vm_compute; reflexivity]. }
  split; [rewrite Ew; apply endswith_app|].
  split; [now apply step2b_no_match | now apply step3_no_match].
Qed.

Lemma step2a_is_followed_by_no_strip_witness :
  let st := regions StandardStemmer._r1r2_standard StandardStemmer._rv_standard
              (py "construyendo") in
  step2a st = st
  \/ (endswith (word (step2a st)) (py "u") = true
      /\ step2b (step2a st) = step2a st
      /\ step3 (step2a st) = Ok (step2a st)).
Proof.
  apply step2a_is_followed_by_no_strip. vm_compute. reflexivity.
Defined.

(** ** The loop over the pre-suffixes of "idad" *)

Lemma endswith_conflict x a b :
  endswith x a = true -> endswith a b = false -> length b <= length a ->
  endswith x b = false.
Proof.
  intros Ha Hab Hl. destruct (endswith x b) eqn:Hb; auto.
  rewrite (@endswith_both x a b Ha Hb Hl) in Hab. discriminate.
Qed.

(** X7.  The loop over "abil", "ic", "iv" has no [break], and still strips
    at most one of them: [r2] is not assigned in the loop and ends with at
    most one. *)
Theorem step1_pre_suff_strips_one (st : locals) :
  step1_pre_suff st
  = if endswith (r2 st) (py "abil") then cut_word_rv 4 st
    else if endswith (r2 st) (py "ic") then cut_word_rv 2 st
    else if endswith (r2 st) (py "iv") then cut_word_rv 2 st
    else st.
Proof.
  unfold step1_pre_suff. cbn [fold_left map].
  destruct (endswith (r2 st) (py "abil")) eqn:E1.
  - assert (E2 : endswith (r2 st) (py "ic") = false)
      by (apply (@endswith_conflict _ (py "abil") _ E1); vm_compute; auto).
    assert (E3 : endswith (r2 st) (py "iv") = false)
      by (apply (@endswith_conflict _ (py "abil") _ E1); vm_compute; auto).
    cbn [r2 cut_word_rv]. rewrite E2. cbn [r2 cut_word_rv]. now rewrite E3.
  - destruct (endswith (r2 st) (py "ic")) eqn:E2; [|reflexivity].
    assert (E3 : endswith (r2 st) (py "iv") = false)
      by (apply (@endswith_conflict _ (py "ic") _ E2); vm_compute; auto).
    cbn [r2 cut_word_rv]. now rewrite E3.
Qed.

(** ** What Step 0 leaves at the end of the word *)

Lemma endswith_any_iff s l :
  endswith_any s l = true <-> exists t, In t l /\ endswith s t = true.
Proof. apply existsb_exists. Qed.

(** X8.  With an RV that is a suffix of the word, Step 0 strips a pronoun
    only behind a gerund or an infinitive: either it changes no local, or
    the word it leaves ends with one of "iendo", "ando", "ar", "er", "ir",
    "yendo", without accent. *)
Theorem step0_leaves_verb_ending (st : locals) :
  rv_valid st = true ->
  step0 st = st \/ endswith_any (word (step0 st)) verb_endings = true.
Proof.
  intros Hv. unfold step0. rewrite step0_loop_find.
  destruct (find _ _) as [suffix|]; auto.
  destruct (endswith (rv st) suffix); auto.
  unfold step0_branch. cbv zeta.
  pose proof (@endswith_drop_last (length suffix) _ _ Hv) as Hd.
  set (rv' := drop_last (length suffix) (rv st)) in *.
  set (word' := drop_last (length suffix) (word st)) in *.
  destruct (endswith_any rv' (map py ["i\xE9ndo"; "\xE1ndo"; "\xE1r"; "\xE9r"; "\xEDr"]%string))
    eqn:E1.
  - right. apply endswith_any_iff in E1 as [t [Ht He]].
    apply endswith_any_iff. exists (plain_aei t). cbn [word]. split.
    + cbn [map In] in Ht.
      repeat (destruct Ht as [<- | Ht]; [vm_compute; tauto|]). destruct Ht.
    + apply endswith_plain_aei. now apply endswith_trans with rv'.
  - destruct (endswith_any rv' (map py ["ando"; "iendo"; "ar"; "er"; "ir"]%string))
      eqn:E2.
    + right. apply endswith_any_iff in E2 as [t [Ht He]].
      apply endswith_any_iff. exists t. unfold cut_word_r1_r2_rv. cbn [word].
      fold word'. split.
      * cbn [map In] in Ht.
        repeat (destruct Ht as [<- | Ht]; [vm_compute; tauto|]). destruct Ht.
      * now apply endswith_trans with rv'.
    + destruct (endswith rv' (py "yendo")) eqn:E3; cbn [andb]; auto.
      destruct (endswith word' (py "uyendo")); auto.
      right. apply endswith_any_iff. exists (py "yendo").
      unfold cut_word_r1_r2_rv. cbn [word]. fold word'. split.
      * vm_compute. tauto.
      * now apply endswith_trans with rv'.
Qed.

Lemma step0_leaves_verb_ending_witness :
  let st := regions StandardStemmer._r1r2_standard StandardStemmer._rv_standard
              (py "haci\xE9ndoselo") in
  step0 st = st \/ endswith_any (word (step0 st)) verb_endings = true.
Proof.
  apply step0_leaves_verb_ending. vm_compute. reflexivity.
Defined.

(** ** The regions that are no longer read *)

Lemma step1_keeps_r1 st : r1 (step1 st) = r1 st.
Proof.
  unfold step1. induction __step1_suffixes as [|suffix rest IH]; cbn [step1_loop]; auto.
  destruct (endswith (word st) suffix); auto.
  unfold step1_branch, step1_amente, step1_r2, step1_pre_suff.
  cbv zeta. cbn [fold_left map]. split_ifs; reflexivity.
Qed.

Lemma step2a_keeps st :
  r1 (step2a st) = r1 st /\ r2 (step2a st) = r2 st
  /\ step1_success (step2a st) = step1_success st.
Proof.
  unfold step2a. induction __step2a_suffixes as [|suffix rest IH]; cbn [step2a_loop]; auto.
  destruct (_ && _); auto.
Qed.

Lemma step2b_keeps st :
  r1 (step2b st) = r1 st /\ r2 (step2b st) = r2 st
  /\ step1_success (step2b st) = step1_success st.
Proof.
  unfold step2b. induction __step2b_suffixes as [|suffix rest IH]; cbn [step2b_loop]; auto.
  destruct (endswith (rv st) suffix); auto.
  unfold step2b_branch. cbv zeta. split_ifs; auto.
Qed.

Lemma step3_keeps st st' :
  step3 st = Ok st' ->
  r1 st' = r1 st /\ r2 st' = r2 st /\ step1_success st' = step1_success st.
Proof.
  unfold step3. induction __step3_suffixes as [|suffix rest IH]; cbn [step3_loop].
  - intros [= <-]. auto.
  - destruct (endswith (rv st) suffix); auto.
    unfold step3_branch. cbv zeta.
    destruct (in_tuple suffix _).
    + destruct (str_eqb _ _).
      * destruct (last_item _) as [c|e]; cbn [bind]; [|discriminate].
        destruct (str_eqb [c] _); intros [= <-]; auto.
      * intros [= <-]. auto.
    + intros [= <-]. auto.
Qed.

(** X9.  A region is sliced only as long as a later test reads it: Step 1
    never assigns [r1], and Steps 2a, 2b and 3 assign neither [r1], [r2] nor
    the flag. *)
Theorem unread_regions_are_kept (st : locals) :
  r1 (step1 st) = r1 st
  /\ (r1 (step2 st) = r1 st /\ r2 (step2 st) = r2 st
      /\ step1_success (step2 st) = step1_success st)
  /\ (forall st', step3 st = Ok st' ->
        r1 st' = r1 st /\ r2 st' = r2 st
        /\ step1_success st' = step1_success st).
Proof.
  split; [apply step1_keeps_r1|]. split; [|apply step3_keeps].
  unfold step2. destruct (negb _); auto.
  destruct (step2b_keeps (step2a st)) as (-> & -> & ->). apply step2a_keeps.
Qed.

(** ** The suffix that Step 1 tries *)

Lemma step1_loop_find suffixes st :
  step1_loop suffixes st
  = match find (fun suffix => endswith (word st) suffix) suffixes with
    | Some suffix => step1_branch suffix st
    | None => st
    end.
Proof.
  induction suffixes as [|suffix rest IH]; cbn [step1_loop find]; auto.
  now destruct (endswith (word st) suffix).
Qed.

(** X10.  Step 1 tries one suffix only, the first of its table that ends
    the word: it strips, and sets the flag, exactly when that suffix also ends
    R2, or is "amente" and ends R1; a later suffix of the table is not tried
    in its place. *)
Theorem step1_tries_first_suffix_only (st : locals) :
  step1_success st = false ->
  step1_success (step1 st)
  = match find (fun suffix => endswith (word st) suffix) __step1_suffixes with
    | Some suffix =>
        (str_eqb suffix (py "amente") && endswith (r1 st) suffix)
        || endswith (r2 st) suffix
    | None => false
    end
  /\ (step1_success (step1 st) = false -> step1 st = st).
Proof.
  intros Hf. split.
  - unfold step1. rewrite step1_loop_find.
    destruct (find _ _) as [suffix|] eqn:F; auto.
    apply find_some in F as [Hin He]. unfold step1_branch.
    destruct (str_eqb suffix (py "amente") && endswith (r1 st) suffix) eqn:Ea.
    + apply andb_true_iff in Ea as [->%str_eqb_eq _].
      now apply step1_amente_fires.
    + cbn [orb]. destruct (endswith (r2 st) suffix); auto.
      apply step1_r2_fires; auto.
      apply all_suffixes_not_empty, in_all_suffixes. tauto.
  - destruct (step1_cases st) as [E | [E _]]; auto. congruence.
Qed.

Lemma step1_tries_first_suffix_only_witness :
  let st := regions StandardStemmer._r1r2_standard StandardStemmer._rv_standard
              (py "claridad") in
  step1_success (step1 st)
  = match find (fun suffix => endswith (word st) suffix) __step1_suffixes with
    | Some suffix =>
        (str_eqb suffix (py "amente") && endswith (r1 st) suffix)
        || endswith (r2 st) suffix
    | None => false
    end
  /\ (step1_success (step1 st) = false -> step1 st = st).
Proof.
  apply step1_tries_first_suffix_only. vm_compute. reflexivity.
Defined.

(** ** The regions at every step boundary *)




(** What else is stale from Step 1 on: after Step 1 on "decorativamente" R2
    is "at", a suffix neither of R1 nor of the word "decor"; after Step 2b on
    "sigues" the word is "sig" and RV is "u"; after Step 3 on "amigos" the
    word is "amig" and RV still "gos". *)
Lemma regions_stale_elsewhere :
  (let st := step1 (step0 (regions StandardStemmer._r1r2_standard
                             StandardStemmer._rv_standard (py "decorativamente"))) in
   word st = py "decor" /\ r1 st = py "orativamente" /\ r2 st = py "at"
   /\ endswith (r1 st) (r2 st) = false /\ endswith (word st) (r2 st) = false)
  /\ (let st := step2 (step1 (step0 (regions StandardStemmer._r1r2_standard
                                       StandardStemmer._rv_standard (py "sigues")))) in
      word st = py "sig" /\ rv st = py "u" /\ rv_valid st = false)
  /\ (let st := step2 (step1 (step0 (regions StandardStemmer._r1r2_standard
                                       StandardStemmer._rv_standard (py "amigos")))) in
      exists st', step3 st = Ok st' /\ word st' = py "amig" /\ rv st' = py "gos"
                  /\ rv_valid st' = false).
Proof.
  split; [|split].
  - repeat split; vm_compute; reflexivity.
  - repeat split; vm_compute; reflexivity.
  - eexists. split; [vm_compute; reflexivity|]. repeat split.
Qed.



(** * [stem] on every code point: the length of the result *)

Module UnicodeFacts.

Import Unicode.

Lemma u_str_eqb_eq (s t : str) : str_eqb s t = true <-> s = t.
Proof.
  unfold str_eqb. destruct (list_eq_dec N.eq_dec s t); split; congruence.
Qed.

Lemma u_in_tuple_In (x : str) t : in_tuple x t = true -> In x t.
Proof.
  unfold in_tuple. intros [y [Hy ->%u_str_eqb_eq]]%existsb_exists. exact Hy.
Qed.

Lemma u_drop_last_le n (s : str) : length (drop_last n s) <= length s.
Proof. unfold drop_last. rewrite length_firstn. lia. Qed.

Lemma u_startswith_length (old s : str) :
  startswith s old = true -> length old <= length s.
Proof.
  revert s. induction old as [|p old' IH]; intros [|c s]; cbn; try lia; try discriminate.
  destruct (N.eq_dec p c); [|discriminate]. intros H%IH. lia.
Qed.

Lemma u_replace_from_length (old new : str) skip (s : str) :
  length new <= length old ->
  length (replace_from old new skip s) + Nat.min skip (length s) <= length s.
Proof.
  intros Hle. revert skip. induction s as [|c s IH]; intros skip; cbn [replace_from].
  - cbn. lia.
  - destruct skip as [|k].
    + destruct (startswith (c :: s) old) eqn:Hs.
      * apply u_startswith_length in Hs. cbn [length] in *.
        specialize (IH (length old - 1)). rewrite length_app. lia.
      * specialize (IH 0). cbn [length] in *. lia.
    + specialize (IH k). cbn [length] in *. lia.
Qed.

Lemma u_replace_le (old new s : str) :
  old <> [] -> length new <= length old -> length (replace old new s) <= length s.
Proof.
  intros Hne Hle. unfold replace. destruct old as [|o old']; [congruence|].
  pose proof (@u_replace_from_length (o :: old') new 0 s Hle). lia.
Qed.

Lemma u_plain_aei_le (s : str) : length (plain_aei s) <= length s.
Proof.
  unfold plain_aei.
  repeat (etransitivity;
          [apply u_replace_le;
           [intros E; vm_compute in E; discriminate | vm_compute; lia]|]).
  reflexivity.
Qed.

Lemma u_plain_aeiou_le (s : str) : length (plain_aeiou s) <= length s.
Proof.
  unfold plain_aeiou.
  repeat (etransitivity;
          [apply u_replace_le;
           [intros E; vm_compute in E; discriminate | vm_compute; lia]|]).
  reflexivity.
Qed.

(** One step of the case analysis on the assignments to [word]. *)
Ltac u_len_word :=
  match goal with
  | |- length ?s <= length ?s => apply Nat.le_refl
  | |- length (word (if ?b then _ else _)) <= _ => destruct b eqn:?
  | |- length (word (cut_word_r1_r2_rv ?n ?st)) <= _ =>
      apply (Nat.le_trans _ (length (word st))); [apply u_drop_last_le|]
  | |- length (word (cut_word_r2_rv ?n ?st)) <= _ =>
      apply (Nat.le_trans _ (length (word st))); [apply u_drop_last_le|]
  | |- length (word (cut_word_rv ?n ?st)) <= _ =>
      apply (Nat.le_trans _ (length (word st))); [apply u_drop_last_le|]
  | |- length (word (cut_word ?n ?st)) <= _ =>
      apply (Nat.le_trans _ (length (word st))); [apply u_drop_last_le|]
  | |- length (word (cut_rv ?n ?st)) <= _ =>
      change (word (cut_rv n st)) with (word st)
  | |- length (word (set_step1_success ?st)) <= _ =>
      change (word (set_step1_success st)) with (word st)
  | |- length (word (replace_word_rv ?old ?new ?st)) <= _ =>
      apply (Nat.le_trans _ (length (word st)));
      [ cbn [word replace_word_rv]; apply u_replace_le | ]
  end.

Lemma u_step0_le st : length (word (step0 st)) <= length (word st).
Proof.
  unfold step0. induction __step0_suffixes as [|suffix rest IH]; cbn [step0_loop]; auto.
  unfold step0_branch. cbv zeta. repeat u_len_word; auto.
  cbn [word]. etransitivity; [apply u_plain_aei_le | apply u_drop_last_le].
Qed.

Lemma u_step1_le st : length (word (step1 st)) <= length (word st).
Proof.
  unfold step1. induction __step1_suffixes as [|suffix rest IH]; cbn [step1_loop]; auto.
  destruct (endswith (word st) suffix); auto.
  unfold step1_branch, step1_amente, step1_r2, step1_pre_suff.
  cbv zeta. cbn [fold_left map].
  repeat u_len_word;
    match goal with
    | H : in_tuple suffix _ = true |- _ =>
        apply u_in_tuple_In in H; cbn [map In] in H;
        repeat (destruct H as [<- | H]; [first [discriminate | vm_compute; lia]|]);
        destruct H
    end.
Qed.

Lemma u_step2_le st : length (word (step2 st)) <= length (word st).
Proof.
  unfold step2. destruct (negb _); auto.
  transitivity (length (word (step2a st))).
  - unfold step2b.
    induction __step2b_suffixes as [|suffix rest IH]; cbn [step2b_loop]; auto.
    unfold step2b_branch. cbv zeta. repeat u_len_word. exact IH.
  - unfold step2a.
    induction __step2a_suffixes as [|suffix rest IH]; cbn [step2a_loop]; auto.
    repeat u_len_word. exact IH.
Qed.

Lemma u_step3_le st st' : step3 st = Ok st' -> length (word st') <= length (word st).
Proof.
  unfold step3. induction __step3_suffixes as [|suffix rest IH]; cbn [step3_loop].
  - intros [= <-]. auto.
  - destruct (endswith (rv st) suffix); auto.
    unfold step3_branch. cbv zeta.
    destruct (in_tuple suffix _).
    + destruct (str_eqb _ _).
      * destruct (last_item _) as [c|e]; cbn [bind]; [|discriminate].
        destruct (str_eqb [c] _); intros [= <-]; repeat u_len_word.
      * intros [= <-]. repeat u_len_word.
    + intros [= <-]. repeat u_len_word.
Qed.

Lemma u_word_regions f g w : word (regions f g w) = w.
Proof. unfold regions. now destruct (f w __vowels). Qed.

(** C5, as the specification states it: false on Python 3.  [str.lower]
    maps the one code point U+0130 to the two code points U+0069 U+0307, no
    step strips them, and [stem] returns both. *)
Lemma stem_dotted_capital_i_is_longer :
  lower_py3 [304%N] = [105%N; 775%N]
  /\ stem_py3 [304%N] = Ok [105%N; 775%N]
  /\ ~ length [105%N; 775%N] <= length [304%N].
Proof.
  split; [reflexivity|]. split; [vm_compute; reflexivity|]. cbn. lia.
Qed.

(** C5, amended.  Whatever [str.lower] and the regions are, a string that
    [stem] returns is no longer than the lower-cased input; it is no longer
    than the input whenever lower-casing does not lengthen the input. *)
Theorem stem_no_longer_than_lowered
    (lower : str -> str) (f : str -> str -> str * str) (g : str -> str -> str)
    (w s : str) :
  stem lower f g w = Ok s ->
  length s <= length (lower w)
  /\ (length (lower w) <= length w -> length s <= length w).
Proof.
  unfold stem, steps. intros H.
  destruct (step3 _) as [st'|e] eqn:H3; cbn [bind] in H; [|discriminate].
  injection H as <-. apply u_step3_le in H3.
  pose proof (u_step2_le (step1 (step0 (regions f g (lower w))))) as H2.
  pose proof (u_step1_le (step0 (regions f g (lower w)))) as H1.
  pose proof (u_step0_le (regions f g (lower w))) as H0.
  rewrite u_word_regions in H0.
  pose proof (u_plain_aeiou_le (word st')). lia.
Qed.

Lemma stem_no_longer_than_lowered_witness :
  length (u "corr") <= length (lower_py3 (u "Corriendo"))
  /\ (length (lower_py3 (u "Corriendo")) <= length (u "Corriendo") ->
      length (u "corr") <= length (u "Corriendo")).
Proof.
  apply (@stem_no_longer_than_lowered lower_py3 StandardStemmer._r1r2_standard
           StandardStemmer._rv_standard (u "Corriendo") (u "corr")).
  vm_compute. reflexivity.
Defined.

(** On strings over U+0000 .. U+00FF [stem_py3] returns the code points of
    what [stem_standard] returns: the literal scenarios, and the two words
    of C1 and C7. *)
Lemma stem_py3_scenarios :
  stem_py3 (u "corriendo") = Ok (u "corr")
  /\ stem_py3 (u "comiendo") = Ok (u "com")
  /\ stem_py3 (u "claridad") = Ok (u "clarid")
  /\ stem_py3 (u "R\xC1PIDAMENTE") = Ok (u "rapid")
  /\ stem_py3 (u "amigos") = Ok (u "amig")
  /\ stem_py3 (u "") = Ok (u "")
  /\ stem_py3 (u "ague") = Raise IndexError
  /\ stem_py3 (u "alog\xEDalog\xEDa") = Ok (u "aloglog").
Proof. repeat split; vm_compute; reflexivity. Qed.

End UnicodeFacts.
